(** * RandomAccessLayeredStorage: a page-granular memory overlay

    Shallow embedding of [lib/random-access-layered-storage.js].  The
    callback chains of the JavaScript source are run to completion one
    operation at a time, so every operation is a function from a store to a
    store and a result.  Offsets and sizes are integers ([Z]), which is what
    the JavaScript numbers of the source are up to [2 ^ 53]; buffers are
    lists of byte values; [Map] is [gmap], [Set] is [gset].
    [Math.floor(a / b)] is [a / b] and [a % b] is [Z.rem a b]. *)

From Stdlib Require Import ZArith List String Lia QArith Qround.
From stdpp Require Import base gmap sets list.

#[local] Set Warnings "-clear-no-such-hyp".

Open Scope string_scope.
Open Scope list_scope.
Open Scope Z_scope.

(** ** Results of a completed callback *)

Inductive result (A : Type) : Type :=
| Ok (a : A)
| Err (msg : string).
Arguments Ok {A} a.
Arguments Err {A} msg.

(** [err.message.includes(pat)] *)
Definition includes (msg pat : string) : bool :=
  match String.index 0 pat msg with
  | Some _ => true
  | None => false
  end.

(** ** Buffers (b4a / Uint8Array) *)

Definition blen (b : list Z) : Z := Z.of_nat (length b).

(** [b4a.alloc(n, 0)] *)
Definition alloc (n : Z) : list Z := replicate (Z.to_nat n) 0.

(** [b.subarray(s, e)], for non-negative [s] and [e]; the view is clamped to
    the length of [b]. *)
Definition subarray (b : list Z) (s e : Z) : list Z :=
  take (Z.to_nat e - Z.to_nat s)%nat (drop (Z.to_nat s) b).

(** [dst.set(src, off)]; the source only calls it with
    [off + src.length <= dst.length] (JavaScript throws otherwise). *)
Definition buf_set (dst src : list Z) (off : Z) : list Z :=
  take (Z.to_nat off) dst ++ src ++ drop (Z.to_nat off + length src)%nat dst.

(** [b.fill(0, s, e)] *)
Definition buf_fill0 (b : list Z) (s e : Z) : list Z :=
  imap (fun i x => if decide (s <= Z.of_nat i < e) then 0 else x) b.

(** [src.copy(dst)]: the bytes of [src] over the head of [dst]. *)
Definition buf_copy (src dst : list Z) : list Z :=
  take (length dst) src ++ drop (length src) dst.

(** The byte a reader sees at index [i]: bytes past the end of a page buffer
    are never copied into the zero-filled result of a read. *)
Definition byte_at (b : list Z) (i : Z) : Z := nth (Z.to_nat i) b 0.

(** ** The backend

    The underlying storage is an external collaborator.  It is modelled as a
    random-access-memory file, following the backend contract: [read] yields
    exactly [size] bytes or fails, [write] writes the whole buffer and
    extends the file with zeroes when needed, [truncate] sets the length,
    [stat] yields the length.  The three flags record which optional
    capabilities the object exposes ([_supports]). *)

Record Backend : Type := mkBackend {
  contents : list Z;
  has_read : bool;
  has_truncate : bool;
  has_stat : bool;
}.

Definition with_contents (c : list Z) (b : Backend) : Backend :=
  {| contents := c; has_read := has_read b;
     has_truncate := has_truncate b; has_stat := has_stat b |}.

Definition resize (c : list Z) (n : Z) : list Z :=
  take (Z.to_nat n) c ++ replicate (Z.to_nat n - length c)%nat 0.

Definition ram_read (b : Backend) (offset size : Z) : result (list Z) :=
  if blen (contents b) <? offset + size
  then Err "Could not satisfy length"
  else Ok (subarray (contents b) offset (offset + size)).

Definition write_bytes (c : list Z) (offset : Z) (buf : list Z) : list Z :=
  take (Z.to_nat offset) (resize c offset) ++ buf
    ++ drop (Z.to_nat offset + length buf)%nat c.

Definition ram_write (b : Backend) (offset : Z) (buf : list Z) : Backend :=
  with_contents (write_bytes (contents b) offset buf) b.

Definition ram_truncate (b : Backend) (n : Z) : Backend :=
  with_contents (resize (contents b) n) b.

Definition ram_stat (b : Backend) : Z := blen (contents b).

(** ** Pages and the store *)

Record Page : Type := mkPage {
  data : list Z;
  modified : bool;
}.

(** The fields of the JavaScript object.  [U] is the type of the underlying
    storage.  [_lru] lists the keys of the LRU cache from the most recently
    used to the least recently used ([_lru.keys()]).  [_accessTimes] only
    records [Date.now()] and is never read: it is left out. *)
Record StoreOver (U : Type) : Type := mkStore {
  _underlying : U;
  pageSize : Z;
  maxPages : Z;
  _createIfMissing : bool;
  _strictSizeLimit : option Z;
  _flushOnClose : bool;
  _autoFlushOnEvict : bool;
  _pages : gmap Z Page;
  _lru : list Z;
  _pinnedPages : gset Z;
  _bitmask : option (list Z);
  _size : Z;
  _fileExists : bool;
  _modifiedPages : gset Z;
  opened : bool;
}.
Arguments mkStore {U}.
Arguments _underlying {U} s.
Arguments pageSize {U} s.
Arguments maxPages {U} s.
Arguments _createIfMissing {U} s.
Arguments _strictSizeLimit {U} s.
Arguments _flushOnClose {U} s.
Arguments _autoFlushOnEvict {U} s.
Arguments _pages {U} s.
Arguments _lru {U} s.
Arguments _pinnedPages {U} s.
Arguments _bitmask {U} s.
Arguments _size {U} s.
Arguments _fileExists {U} s.
Arguments _modifiedPages {U} s.
Arguments opened {U} s.

Section Setters.
Context {U : Type}.
Implicit Type s : StoreOver U.

Definition set_underlying (u : U) s : StoreOver U :=
  mkStore u (pageSize s) (maxPages s) (_createIfMissing s)
    (_strictSizeLimit s) (_flushOnClose s) (_autoFlushOnEvict s) (_pages s)
    (_lru s) (_pinnedPages s) (_bitmask s) (_size s) (_fileExists s)
    (_modifiedPages s) (opened s).

Definition set_strictSizeLimit (l : option Z) s : StoreOver U :=
  mkStore (_underlying s) (pageSize s) (maxPages s) (_createIfMissing s)
    l (_flushOnClose s) (_autoFlushOnEvict s) (_pages s)
    (_lru s) (_pinnedPages s) (_bitmask s) (_size s) (_fileExists s)
    (_modifiedPages s) (opened s).

Definition set_pages (m : gmap Z Page) s : StoreOver U :=
  mkStore (_underlying s) (pageSize s) (maxPages s) (_createIfMissing s)
    (_strictSizeLimit s) (_flushOnClose s) (_autoFlushOnEvict s) m
    (_lru s) (_pinnedPages s) (_bitmask s) (_size s) (_fileExists s)
    (_modifiedPages s) (opened s).

Definition set_lru (l : list Z) s : StoreOver U :=
  mkStore (_underlying s) (pageSize s) (maxPages s) (_createIfMissing s)
    (_strictSizeLimit s) (_flushOnClose s) (_autoFlushOnEvict s) (_pages s)
    l (_pinnedPages s) (_bitmask s) (_size s) (_fileExists s)
    (_modifiedPages s) (opened s).

Definition set_pinnedPages (p : gset Z) s : StoreOver U :=
  mkStore (_underlying s) (pageSize s) (maxPages s) (_createIfMissing s)
    (_strictSizeLimit s) (_flushOnClose s) (_autoFlushOnEvict s) (_pages s)
    (_lru s) p (_bitmask s) (_size s) (_fileExists s)
    (_modifiedPages s) (opened s).

Definition set_bitmask (b : option (list Z)) s : StoreOver U :=
  mkStore (_underlying s) (pageSize s) (maxPages s) (_createIfMissing s)
    (_strictSizeLimit s) (_flushOnClose s) (_autoFlushOnEvict s) (_pages s)
    (_lru s) (_pinnedPages s) b (_size s) (_fileExists s)
    (_modifiedPages s) (opened s).

Definition set_size (n : Z) s : StoreOver U :=
  mkStore (_underlying s) (pageSize s) (maxPages s) (_createIfMissing s)
    (_strictSizeLimit s) (_flushOnClose s) (_autoFlushOnEvict s) (_pages s)
    (_lru s) (_pinnedPages s) (_bitmask s) n (_fileExists s)
    (_modifiedPages s) (opened s).

Definition set_fileExists (b : bool) s : StoreOver U :=
  mkStore (_underlying s) (pageSize s) (maxPages s) (_createIfMissing s)
    (_strictSizeLimit s) (_flushOnClose s) (_autoFlushOnEvict s) (_pages s)
    (_lru s) (_pinnedPages s) (_bitmask s) (_size s) b
    (_modifiedPages s) (opened s).

Definition set_modifiedPages (m : gset Z) s : StoreOver U :=
  mkStore (_underlying s) (pageSize s) (maxPages s) (_createIfMissing s)
    (_strictSizeLimit s) (_flushOnClose s) (_autoFlushOnEvict s) (_pages s)
    (_lru s) (_pinnedPages s) (_bitmask s) (_size s) (_fileExists s)
    m (opened s).

Definition set_opened (b : bool) s : StoreOver U :=
  mkStore (_underlying s) (pageSize s) (maxPages s) (_createIfMissing s)
    (_strictSizeLimit s) (_flushOnClose s) (_autoFlushOnEvict s) (_pages s)
    (_lru s) (_pinnedPages s) (_bitmask s) (_size s) (_fileExists s)
    (_modifiedPages s) b.
End Setters.

(** A store over a memory backend. *)
Abbreviation Store := (StoreOver Backend).

(** ** Opening *)

(** [_open]: the backend is opened, the file is marked as existing and the
    size is reconciled with [stat].  A memory file always opens and its
    [stat] never fails, so the error paths of the source are not reached. *)
Definition _open (st : Store) : Store :=
  if opened st then st
  else
    let st1 := set_fileExists true st in
    if has_stat (_underlying st1)
    then set_opened true
           (set_size (Z.max (_size st1) (ram_stat (_underlying st1))) st1)
    else set_opened true st1.

Definition _ensureOpen (st : Store) : Store :=
  if opened st then st else _open st.

(** ** Flush *)

Definition clear_modified (pageIndex : Z) (pg : Page) (st : Store) : Store :=
  set_modifiedPages (_modifiedPages st ∖ {[pageIndex]})
    (set_pages (<[pageIndex := mkPage (data pg) false]> (_pages st)) st).

(** The [flushNext] closure of [_performFlush]; [pagesToFlush] is what is
    left of the array from [index] on. *)
Fixpoint flushNext (st : Store) (offset end_ startPage endPage : Z)
    (pagesToFlush : list Z) : Store * result unit :=
  match pagesToFlush with
  | [] =>
      if (_size st <? end_) && has_truncate (_underlying st)
      then (set_underlying (ram_truncate (_underlying st) (_size st)) st, Ok tt)
      else (st, Ok tt)
  | pageIndex :: rest =>
      let pageOffset := pageIndex * pageSize st in
      let startOffsetInPage :=
        if pageIndex =? startPage then Z.rem offset (pageSize st) else 0 in
      let endOffsetInPage :=
        if pageIndex =? endPage then Z.rem (end_ - 1) (pageSize st) + 1
        else pageSize st in
      let writeSize := endOffsetInPage - startOffsetInPage in
      let page := _pages st !! pageIndex in
      let bufferToWrite :=
        match page with
        | Some pg => subarray (data pg) startOffsetInPage endOffsetInPage
        | None => alloc writeSize
        end in
      let st1 :=
        set_underlying
          (ram_write (_underlying st) (pageOffset + startOffsetInPage)
             bufferToWrite) st in
      let st2 :=
        match page with
        | Some pg => if modified pg then clear_modified pageIndex pg st1 else st1
        | None => st1
        end in
      flushNext st2 offset end_ startPage endPage rest
  end.

Definition _performFlush (st : Store) (offset size : Z) : Store * result unit :=
  let end_ := offset + size in
  let startPage := offset / pageSize st in
  let endPage := (end_ - 1) / pageSize st in
  let pagesToFlush := seqZ startPage (endPage - startPage + 1) in
  flushNext st offset end_ startPage endPage pagesToFlush.

Definition flush (st : Store) (offset size : Z) : Store * result unit :=
  let st := _ensureOpen st in
  let size := Z.min size (_size st) in
  _performFlush st offset size.

(** ** The LRU cache and eviction *)

(** [_lru.delete(k)].  The library calls the dispose hook here too, with
    the same arguments as on eviction (see [lru_set]), which makes the call
    a no-op: only the key list changes. *)
Definition lru_delete (k : Z) (l : list Z) : list Z :=
  filter (fun x => x ≠ k) l.

(** [_lru.get(k)] promotes a key that is present. *)
Definition lru_get (k : Z) (l : list Z) : list Z :=
  if decide (k ∈ l) then k :: lru_delete k l else l.

Definition _evictPage (st : Store) (pageIndex : Z) : Store :=
  if decide (pageIndex ∈ _pinnedPages st) then st
  else
    set_modifiedPages (_modifiedPages st ∖ {[pageIndex]})
      (set_lru (lru_delete pageIndex (_lru st))
         (set_pages (delete pageIndex (_pages st)) st)).

(** The arguments a JavaScript caller may hand to [_onEvict]. *)
Inductive jsval : Type :=
| JNum (n : Z)
| JBool (b : bool).

(** [_onEvict(pageIndex, value)].  [_pages.get] of a key that is not a
    number finds nothing. *)
Definition _onEvict (st : Store) (pageIndex value : jsval) : Store :=
  match pageIndex with
  | JBool _ => st
  | JNum idx =>
      match _pages st !! idx with
      | None => st
      | Some page =>
          if decide (idx ∈ _pinnedPages st) then st
          else if modified page && _autoFlushOnEvict st
          then _evictPage (fst (flush st (idx * pageSize st) (pageSize st))) idx
          else _evictPage st idx
      end
  end.

(** [_lru.set(k, true)].  The cache is an external library: lru-cache,
    version 11 ([package.json] asks for ^11.0.1), built with
    [max = maxPages], [dispose = _onEvict] and [noDisposeOnSet].  A key
    already present is promoted.  A new key in a full cache drops the least
    recently used key, after calling the hook as
    [dispose(value, key, reason)]; the value stored with every key is
    [true], so the call is [_onEvict(true, key)]. *)
Definition lru_set (st : Store) (k : Z) : Store :=
  if decide (k ∈ _lru st) then set_lru (k :: lru_delete k (_lru st)) st
  else if Z.of_nat (length (_lru st)) <? maxPages st
  then set_lru (k :: _lru st) st
  else
    match last (_lru st) with
    | None => set_lru (k :: _lru st) st
    | Some victim =>
        let st1 := _onEvict st (JBool true) (JNum victim) in
        set_lru (k :: lru_delete victim (_lru st1)) st1
    end.

Definition _touchPage (st : Store) (pageIndex : Z) : Store :=
  set_lru (lru_get pageIndex (_lru st)) st.

(** ** Loading pages *)

Definition install_page (st : Store) (pageIndex : Z) (pg : Page) : Store :=
  lru_set (set_pages (<[pageIndex := pg]> (_pages st)) st) pageIndex.

Definition _loadPage (st : Store) (pageIndex : Z) : Store * result Page :=
  let pageOffset := pageIndex * pageSize st in
  let page := mkPage (alloc (pageSize st)) false in
  if _fileExists st && has_read (_underlying st) then
    let bytesToRead := Z.min (pageSize st) (_size st - pageOffset) in
    if 0 <? bytesToRead then
      match ram_read (_underlying st) pageOffset bytesToRead with
      | Err msg => (st, Err msg)
      | Ok buf =>
          let pg :=
            mkPage (buf_set (data page) (subarray buf 0 bytesToRead) 0) false in
          (install_page st pageIndex pg, Ok pg)
      end
    else (install_page st pageIndex page, Ok page)
  else (install_page st pageIndex page, Ok page).

Definition _getPage (st : Store) (pageIndex : Z) : Store * result Page :=
  match _pages st !! pageIndex with
  | Some page => (st, Ok page)
  | None => _loadPage st pageIndex
  end.

Definition _loadOrCreatePage (st : Store) (pageIndex : Z) :=
  _loadPage st pageIndex.

Definition _getOrCreatePage (st : Store) (pageIndex : Z) : Store * result Page :=
  match _pages st !! pageIndex with
  | Some page => (st, Ok page)
  | None => _loadOrCreatePage st pageIndex
  end.

(** ** The bitmask *)

Definition bit_ok (bitmask : list Z) (bitIndex : Z) : bool :=
  let byteIndex := bitIndex / 8 in
  let bitInByte := Z.rem bitIndex 8 in
  if blen bitmask <=? byteIndex then false
  else negb (Z.land (Z.shiftr (byte_at bitmask byteIndex) bitInByte) 1 =? 0).

Definition _isBitSet (st : Store) (offset length : Z) : bool :=
  match _bitmask st with
  | None => true
  | Some bitmask =>
      forallb (fun i => bit_ok bitmask (offset + i)) (seqZ 0 length)
  end.

Definition setBitmask (st : Store) (bitmaskBuffer : list Z) : Store :=
  set_bitmask (Some bitmaskBuffer) st.

Definition clearBitmask (st : Store) : Store := set_bitmask None st.

(** ** Read, write, delete *)

(** The page loops below recurse on a fuel that bounds the number of page
    steps; the entry points give them as many steps as there are bytes to
    process, which is always enough (each step handles at least one byte). *)
Definition fuel_exhausted : string := "page loop out of steps".

(** Offsets and sizes are JavaScript numbers: doubles that hold integers.
    The embedding takes them as integers, which is exact as long as they
    stay within [2 ^ 53] in magnitude.  [to_double z] is the number an
    addition yields when its exact result is the integer [z]: the nearest
    integer with a 53-bit significand, a tie going to the even significand.
    (The largest double, near [2 ^ 1024], is not modelled.)  The limit
    guard is where a request is judged by such a sum alone, and it carries
    the rounding; the page loops and the size are computed on the exact
    integers. *)
Definition round_to (ulp z : Z) : Z :=
  (if (ulp <? 2 * (z mod ulp)) || ((ulp =? 2 * (z mod ulp)) && Z.odd (z / ulp))
   then z / ulp + 1 else z / ulp) * ulp.

Definition to_double (z : Z) : Z :=
  let a := Z.abs z in
  let e := Z.log2 a - 52 in
  if e <=? 0 then z else Z.sgn z * round_to (2 ^ e) a.

(** The guard of [_read] and [_write]: [last] is the exact value of
    [req.offset + req.size], which the guard compares as the addition
    yields it. *)
Definition strict_exceeded (st : Store) (last : Z) : bool :=
  match _strictSizeLimit st with
  | None => false
  | Some limit => limit <? to_double last
  end.

Fixpoint readNext (fuel : nat) (st : Store) (req_size : Z) (buffer : list Z)
    (bytesRead offset : Z) : Store * result (list Z) :=
  if req_size <=? bytesRead then (st, Ok buffer)
  else
    match fuel with
    | O => (st, Err fuel_exhausted)
    | S fuel' =>
        let pageIndex := offset / pageSize st in
        let pageOffset := Z.rem offset (pageSize st) in
        let bytesToRead :=
          Z.min (pageSize st - pageOffset) (req_size - bytesRead) in
        match _getPage st pageIndex with
        | (st1, Err msg) =>
            if includes msg "Read exceeds storage size"
            then readNext fuel' st1 req_size buffer
                   (bytesRead + bytesToRead) (offset + bytesToRead)
            else (st1, Err msg)
        | (st1, Ok page) =>
            let buffer' :=
              buf_set buffer
                (subarray (data page) pageOffset (pageOffset + bytesToRead))
                bytesRead in
            let st2 := _touchPage st1 pageIndex in
            readNext fuel' st2 req_size buffer'
              (bytesRead + bytesToRead) (offset + bytesToRead)
        end
    end.

Definition _read (st : Store) (offset size : Z) : Store * result (list Z) :=
  let st := _ensureOpen st in
  if negb (_fileExists st) then (st, Err "File does not exist")
  else if strict_exceeded st (offset + size)
  then (st, Err "Read exceeds strict size enforcement")
  else readNext (Z.to_nat size) st size (alloc size) 0 offset.

(** The body of the [_getOrCreatePage] callback in [_write]: grow the page
    buffer when it is too short, copy the bytes in, mark the page. *)
Definition write_page (page : Page) (pageOffset bytesToWrite : Z)
    (chunk : list Z) : Page :=
  let data1 :=
    if blen (data page) <? pageOffset + bytesToWrite
    then buf_copy (data page) (alloc (pageOffset + bytesToWrite))
    else data page in
  mkPage (buf_set data1 chunk pageOffset) true.

Fixpoint writeNext (fuel : nat) (st : Store) (req_offset : Z)
    (req_data : list Z) (bytesWritten offset : Z) : Store * result unit :=
  if blen req_data <=? bytesWritten
  then (set_size (Z.max (_size st) (req_offset + blen req_data)) st, Ok tt)
  else
    match fuel with
    | O => (st, Err fuel_exhausted)
    | S fuel' =>
        let pageIndex := offset / pageSize st in
        let pageOffset := Z.rem offset (pageSize st) in
        let bytesToWrite :=
          Z.min (pageSize st - pageOffset) (blen req_data - bytesWritten) in
        if bool_decide (is_Some (_bitmask st))
           && negb (_isBitSet st offset bytesToWrite)
        then writeNext fuel' st req_offset req_data
               (bytesWritten + bytesToWrite) (offset + bytesToWrite)
        else
          match _getOrCreatePage st pageIndex with
          | (st1, Err msg) => (st1, Err msg)
          | (st1, Ok page) =>
              let page' :=
                write_page page pageOffset bytesToWrite
                  (subarray req_data bytesWritten (bytesWritten + bytesToWrite)) in
              let st2 :=
                set_modifiedPages ({[pageIndex]} ∪ _modifiedPages st1)
                  (set_pages (<[pageIndex := page']> (_pages st1)) st1) in
              let st3 :=
                if decide (pageIndex ∈ _pinnedPages st2) then st2
                else _touchPage st2 pageIndex in
              writeNext fuel' st3 req_offset req_data
                (bytesWritten + bytesToWrite) (offset + bytesToWrite)
          end
    end.

Definition _write (st : Store) (offset : Z) (data : list Z)
    : Store * result unit :=
  let st := _ensureOpen st in
  if strict_exceeded st (offset + blen data)
  then (st, Err "Write exceeds strict size enforcement")
  else writeNext (length data) st offset data 0 offset.

(** A request size is a number or [Infinity]. *)
Inductive jsnum : Type :=
| Fin (n : Z)
| Infinity.

Fixpoint deleteNext (fuel : nat) (st : Store) (req_offset end_ : Z)
    (bytesDeleted offset : Z) : Store * result unit :=
  if end_ - req_offset <=? bytesDeleted
  then ((if end_ =? _size st then set_size req_offset st else st), Ok tt)
  else
    match fuel with
    | O => (st, Err fuel_exhausted)
    | S fuel' =>
        let pageIndex := offset / pageSize st in
        let pageOffset := Z.rem offset (pageSize st) in
        let bytesToDelete := Z.min (pageSize st - pageOffset) (end_ - offset) in
        let st2 :=
          match _getPage st pageIndex with
          | (st1, Ok page) =>
              let page' :=
                mkPage
                  (buf_fill0 (data page) pageOffset (pageOffset + bytesToDelete))
                  true in
              set_modifiedPages ({[pageIndex]} ∪ _modifiedPages st1)
                (set_pages (<[pageIndex := page']> (_pages st1)) st1)
          | (st1, Err _) => st1
          end in
        deleteNext fuel' st2 req_offset end_
          (bytesDeleted + bytesToDelete) (offset + bytesToDelete)
    end.

Definition _del (st : Store) (offset : Z) (size : jsnum) : Store * result unit :=
  let st := _ensureOpen st in
  let end_ :=
    match size with
    | Infinity => _size st
    | Fin n => if _size st <? offset + n then _size st else offset + n
    end in
  deleteNext (Z.to_nat (end_ - offset)) st offset end_ 0 offset.

(** ** Truncate and stat *)

(** One turn of the removal loop of [_truncate]. *)
Definition remove_page (st : Store) (index : Z) : Store :=
  set_pinnedPages (_pinnedPages st ∖ {[index]})
    (set_modifiedPages (_modifiedPages st ∖ {[index]})
       (set_lru (lru_delete index (_lru st))
          (set_pages (delete index (_pages st)) st))).

Definition _truncate (st : Store) (newSize : Z) : Store * result unit :=
  let st := _ensureOpen st in
  if _size st <? newSize then
    let bytesToGrow := newSize - _size st in
    let growBuffer := alloc bytesToGrow in
    match _write st (_size st) growBuffer with
    | (st1, Err msg) => (st1, Err msg)
    | (st1, Ok _) => (set_size newSize st1, Ok tt)
    end
  else
    let st1 := set_size newSize st in
    let pageIndex := newSize / pageSize st1 in
    let pagesToRemove :=
      filter (fun index => pageIndex < index) (elements (dom (_pages st1))) in
    let st2 := foldl remove_page st1 pagesToRemove in
    let st3 :=
      match _pages st2 !! pageIndex with
      | None => st2
      | Some lastPage =>
          let newPageSize := Z.rem newSize (pageSize st2) in
          if newPageSize =? 0 then remove_page st2 pageIndex
          else
            set_modifiedPages ({[pageIndex]} ∪ _modifiedPages st2)
              (set_pages
                 (<[pageIndex := mkPage (subarray (data lastPage) 0 newPageSize)
                                   true]> (_pages st2)) st2)
      end in
    if has_truncate (_underlying st3)
    then (set_underlying (ram_truncate (_underlying st3) newSize) st3, Ok tt)
    else (st3, Ok tt).

Definition _stat (st : Store) : Store * result Z :=
  let st := _ensureOpen st in
  (st, Ok (_size st)).

(** ** Pins and explicit eviction *)

Definition page_span (st : Store) (offset size : Z) : list Z :=
  let startPage := offset / pageSize st in
  let endPage := (offset + size - 1) / pageSize st in
  seqZ startPage (endPage - startPage + 1).

Definition pin (st : Store) (offset size : Z) : Store :=
  set_pinnedPages
    (foldl (fun s pageIndex => {[pageIndex]} ∪ s) (_pinnedPages st)
       (page_span st offset size)) st.

Definition unpin (st : Store) (offset size : Z) : Store :=
  set_pinnedPages
    (foldl (fun s pageIndex => s ∖ {[pageIndex]}) (_pinnedPages st)
       (page_span st offset size)) st.

(** The [evictNext] closure of [evict]; [pages] is what is left of the
    array from [evictIndex] on.  A flush error is only logged. *)
Fixpoint evictNext (st : Store) (flushBeforeEvict : bool) (pagesToEvict : Z)
    (pages : list Z) (evictIndex : Z) : Store :=
  match pages with
  | [] => st
  | pageIndex :: rest =>
      if pagesToEvict <=? evictIndex then st
      else
        let st1 :=
          if flushBeforeEvict
          then fst (flush st (pageIndex * pageSize st) (pageSize st))
          else st in
        evictNext (_evictPage st1 pageIndex) flushBeforeEvict pagesToEvict
          rest (evictIndex + 1)
  end.

Definition evict (st : Store) (percent : Q) (flushBeforeEvict : bool) : Store :=
  let totalPages := Z.of_nat (length (_lru st)) in
  let pagesToEvict := Qceiling (inject_Z totalPages * percent) in
  let pages :=
    rev (filter (fun index => index ∉ _pinnedPages st) (_lru st)) in
  evictNext st flushBeforeEvict pagesToEvict pages 0.

(** ** Construction *)

Record Opts : Type := mkOpts {
  opt_pageSize : option Z;
  opt_maxPages : option Z;
  opt_createIfMissing : option bool;
  opt_strictSizeEnforcement : option Z;
  opt_flushOnClose : option bool;
  opt_autoFlushOnEvict : option bool;
}.

Definition no_opts : Opts := mkOpts None None None None None None.

(** [x || d] on an optional number. *)
Definition num_or (x : option Z) (d : Z) : Z :=
  match x with
  | Some v => if v =? 0 then d else v
  | None => d
  end.

(** [x !== undefined ? x : true] *)
Definition flag_or_true (x : option bool) : bool :=
  match x with
  | Some v => v
  | None => true
  end.

(** The fields the constructor initialises, whatever the underlying
    storage is. *)
Definition init_fields {U : Type} (underlyingStorage : U) (opts : Opts)
    : StoreOver U :=
  mkStore underlyingStorage
    (num_or (opt_pageSize opts) (1024 * 1024))
    (num_or (opt_maxPages opts) 100)
    (flag_or_true (opt_createIfMissing opts))
    (opt_strictSizeEnforcement opts)
    (flag_or_true (opt_flushOnClose opts))
    (flag_or_true (opt_autoFlushOnEvict opts))
    ∅ [] ∅ None 0 false ∅ false.

(** A store over a backend that is not itself a layered store. *)
Definition create (underlyingStorage : Backend) (opts : Opts) : Store :=
  init_fields underlyingStorage opts.

(** What a store can be layered on: a plain backend or another layered
    store.  The constructor writes into the object it is given; the
    [_underlying] field of the store it builds is that object as the
    constructor leaves it. *)
#[local] Unset Elimination Schemes.
Inductive Underlying : Type :=
| Plain (b : Backend)
| Layered (inner : StoreOver Underlying).
#[local] Set Elimination Schemes.

Definition constructor (underlyingStorage : Underlying) (opts : Opts)
    : StoreOver Underlying :=
  let this := init_fields underlyingStorage opts in
  match underlyingStorage with
  | Layered inner =>
      set_underlying
        (Layered (set_strictSizeLimit (_strictSizeLimit this) inner)) this
  | Plain _ => this
  end.

(** The strict limit of an underlying object, when it is a layered store. *)
Definition nested_limit (u : Underlying) : option (option Z) :=
  match u with
  | Layered inner => Some (_strictSizeLimit inner)
  | Plain _ => None
  end.

(** ** The strict variant ([lib/strict-random-access-layered-storage.js]) *)

Module Strict.
Definition _read (st : Store) (offset size : Z) : Store * result (list Z) :=
  let st := _ensureOpen st in
  if _size st <? offset + size
  then (st, Err "Attempted to read beyond the storage size.")
  else _read st offset size.
End Strict.

(** ** Sequences of operations *)

Inductive Op : Type :=
| ORead (offset size : Z)
| OWrite (offset : Z) (data : list Z)
| ODel (offset : Z) (size : jsnum)
| OTruncate (newSize : Z)
| OFlush (offset size : Z)
| OPin (offset size : Z)
| OUnpin (offset size : Z)
| OEvict (percent : Q) (flushBeforeEvict : bool)
| OSetBitmask (bitmask : list Z)
| OClearBitmask.

Definition step (st : Store) (op : Op) : Store :=
  match op with
  | ORead o n => fst (_read st o n)
  | OWrite o d => fst (_write st o d)
  | ODel o n => fst (_del st o n)
  | OTruncate n => fst (_truncate st n)
  | OFlush o n => fst (flush st o n)
  | OPin o n => pin st o n
  | OUnpin o n => unpin st o n
  | OEvict p f => evict st p f
  | OSetBitmask b => setBitmask st b
  | OClearBitmask => clearBitmask st
  end.

Definition run (st : Store) (ops : list Op) : Store := foldl step st ops.

(** An empty memory backend with every capability. *)
Definition empty_ram : Backend := mkBackend [] true true true.

(** ** Auxiliary definitions for the statements *)

(** The substring every strict-limit error message carries. *)
Definition limit_message : string := "exceeds strict size enforcement".

(** The store with its page map, LRU list and dirty set blanked: what the
    page loops never change. *)
Definition core (st : Store) : Store :=
  set_modifiedPages ∅ (set_lru [] (set_pages ∅ st)).

(** Example configurations. *)
Definition limit10 : Opts := mkOpts (Some 1024) (Some 10) None (Some 10) None None.
Definition small_pages : Opts := mkOpts (Some 4) (Some 10) None None None None.
Definition one_page : Opts := mkOpts (Some 1) (Some 1) None None None None.
Definition two_pages : Opts := mkOpts (Some 4) (Some 2) None None None None.
Definition limit_2_53 : Opts :=
  mkOpts (Some 4) (Some 10) None (Some (2 ^ 53)) None None.

(** The LRU list respects the capacity the cache was built with. *)
Definition lru_ok (st : Store) : Prop :=
  1 <= maxPages st /\ Z.of_nat (length (_lru st)) <= maxPages st.

(** Options the constructor accepts: the LRU cache refuses a capacity that
    is not a positive integer. *)
Definition valid_opts (opts : Opts) : Prop :=
  match opt_maxPages opts with
  | Some m => 0 <= m
  | None => True
  end.

(** The backend write that one turn of [flushNext] issues for
    [pageIndex]: the absolute offset and the buffer. *)
Definition flush_write (st : Store) (offset end_ startPage endPage : Z)
    (pageIndex : Z) : Z * list Z :=
  let startOffsetInPage :=
    if pageIndex =? startPage then Z.rem offset (pageSize st) else 0 in
  let endOffsetInPage :=
    if pageIndex =? endPage then Z.rem (end_ - 1) (pageSize st) + 1
    else pageSize st in
  (pageIndex * pageSize st + startOffsetInPage,
   match _pages st !! pageIndex with
   | Some pg => subarray (data pg) startOffsetInPage endOffsetInPage
   | None => alloc (endOffsetInPage - startOffsetInPage)
   end).

(** A sequence of backend writes, first to last. *)
Definition apply_writes (c : list Z) (ws : list (Z * list Z)) : list Z :=
  foldl (fun c w => write_bytes c (fst w) (snd w)) c ws.

(** The byte at index [i] after the writes [ws], when it was [v] before. *)
Fixpoint overlay_at (ws : list (Z * list Z)) (i : nat) (v : Z) : Z :=
  match ws with
  | [] => v
  | w :: ws' =>
      overlay_at ws' i
        (if decide (Z.to_nat (fst w) <= i < Z.to_nat (fst w) + length (snd w))%nat
         then nth (i - Z.to_nat (fst w)) (snd w) 0
         else v)
  end.


(** The final truncate of a flush, when it is issued. *)
Definition settle (cut : bool) (n : Z) (c : list Z) : list Z :=
  if cut then resize c n else c.

(** The range a flush clips itself to, and the pages it visits. *)
Definition flush_size (st : Store) (n : Z) : Z := Z.min n (_size (_ensureOpen st)).

Definition flush_visits (st : Store) (o n p : Z) : Prop :=
  o / pageSize st <= p <= (o + flush_size st n - 1) / pageSize st.


(** No resident page among those satisfying [P] is flagged modified. *)
Definition all_clean (st : Store) (P : Z -> Prop) : Prop :=
  forall p pg, P p -> _pages st !! p = Some pg -> modified pg = false.

(** What a flush never changes: everything but the bytes of the backend,
    the page map, the LRU list and the dirty set. *)
Definition flush_core (st : Store) : Store :=
  core (set_underlying (with_contents [] (_underlying st)) st).

(** The part of the byte range [[from, upto)] that falls on page [p]. *)
Definition part_lo (st : Store) (from p : Z) : Z := Z.max from (p * pageSize st).
Definition part_hi (st : Store) (upto p : Z) : Z :=
  Z.min upto ((p + 1) * pageSize st).

(** Page [p] holds part of the range and the bitmask, when there is one,
    lets that part through: the write reaches the page. *)
Definition hit (st : Store) (from upto p : Z) : bool :=
  bool_decide (part_lo st from p < part_hi st upto p)
  && _isBitSet st (part_lo st from p) (part_hi st upto p - part_lo st from p).

(** Page [p] of [st'] is the page [_getPage] yields in [st] with the bytes
    of [d] (a buffer written at offset [o]) laid over [[lo, hi)], flagged
    modified; the bytes elsewhere on the page read as they did. *)
Definition page_written (st st' : Store) (o : Z) (d : list Z) (lo hi p : Z)
    : Prop :=
  exists pg0 pg',
    snd (_getPage st p) = Ok pg0
    /\ _pages st' !! p = Some pg'
    /\ modified pg' = true
    /\ subarray (data pg') (lo - p * pageSize st) (hi - p * pageSize st)
       = subarray d (lo - o) (hi - o)
    /\ (forall j, 0 <= j ->
          ~ (lo - p * pageSize st <= j < hi - p * pageSize st) ->
          byte_at (data pg') j = byte_at (data pg0) j)
    /\ p ∈ _modifiedPages st'.

(** Page [p] is in [st'] what it was in [st]: same entry, same dirtiness. *)
Definition page_kept (st st' : Store) (p : Z) : Prop :=
  _pages st' !! p = _pages st !! p
  /\ (p ∈ _modifiedPages st' <-> p ∈ _modifiedPages st).

(** The page buffer once [_write] has made room for [m] bytes. *)
Definition grown (b : list Z) (m : Z) : list Z :=
  if blen b <? m then buf_copy b (alloc m) else b.

(** A backend that already holds six bytes. *)
Definition ram_nines : Backend := mkBackend [9; 9; 9; 9; 9; 9] true true true.




(** What every store built by the constructor and driven through its
    operations satisfies: a positive page size, and an existing file once
    the store is open. *)
Definition wf (st : Store) : Prop :=
  0 < pageSize st /\ (opened st = true -> _fileExists st = true).

(** Options with a usable page size. *)
Definition valid_page_size (opts : Opts) : Prop :=
  match opt_pageSize opts with
  | Some v => 0 <= v
  | None => True
  end.

(** ** Auxiliary definitions for further properties *)

(** [st'] shows a reader the pages [st] shows: same page size, and every
    page fetch yields the same page or the same error. *)
Definition same_view (st st' : Store) : Prop :=
  pageSize st' = pageSize st
  /\ forall p, snd (_getPage st' p) = snd (_getPage st p).

(** [st'] is [st] with some pages loaded and the LRU list reordered: same
    core, same dirty set, every page either as it was or newly resident and
    clean. *)
Definition loads_only (st st' : Store) : Prop :=
  core st' = core st
  /\ _modifiedPages st' = _modifiedPages st
  /\ forall p,
       _pages st' !! p = _pages st !! p
       \/ (_pages st !! p = None
           /\ exists pg, _pages st' !! p = Some pg /\ modified pg = false).

(** What read, write and delete never change: the core without the size. *)
Definition shell (st : Store) : Store := set_size 0 (core st).


(** The bookkeeping of the overlay agrees with its page map: the LRU list
    names no page twice and only resident pages, and the dirty set holds
    exactly the resident pages flagged modified. *)
Definition consistent (st : Store) : Prop :=
  NoDup (_lru st)
  /\ (forall k, k ∈ _lru st -> is_Some (_pages st !! k))
  /\ (forall p, p ∈ _modifiedPages st
                <-> exists pg, _pages st !! p = Some pg /\ modified pg = true).

(** The write [w] (an offset and a buffer) covers index [i] of the file. *)
Definition covers (w : Z * list Z) (i : nat) : Prop :=
  (Z.to_nat (fst w) <= i < Z.to_nat (fst w) + length (snd w))%nat.

(** The byte a flush leaves in the backend at an index [i] it visits: the
    byte of the resident page, a zero when the page is not resident, and the
    byte the backend held when the page buffer is too short to reach [i]. *)
Definition flushed_byte (st : Store) (i : Z) : Z :=
  match _pages st !! (i / pageSize st) with
  | Some pg =>
      if Z.rem i (pageSize st) <? blen (data pg)
      then byte_at (data pg) (Z.rem i (pageSize st))
      else byte_at (contents (_underlying st)) i
  | None => 0
  end.

(** A store over six stored bytes, with two of them overwritten in the
    overlay. *)
Definition ram_nines_written : Store :=
  fst (_write (create ram_nines small_pages) 1 [7; 8]).






(** * Properties *)

(** ** Opening and framing *)

Lemma ensureOpen_opened (st : Store) : opened (_ensureOpen st) = true.
Proof.
  unfold _ensureOpen, _open. destruct (opened st) eqn:E; [exact E|].
  simpl. destruct (has_stat (_underlying st)); reflexivity.
Qed.

Lemma ensureOpen_of_opened (st : Store) :
  opened st = true -> _ensureOpen st = st.
Proof. unfold _ensureOpen. intros ->. reflexivity. Qed.

Lemma ensureOpen_idem (st : Store) : _ensureOpen (_ensureOpen st) = _ensureOpen st.
Proof. apply ensureOpen_of_opened, ensureOpen_opened. Qed.

Lemma ensureOpen_fileExists (st : Store) :
  (opened st = true -> _fileExists st = true) ->
  _fileExists (_ensureOpen st) = true.
Proof.
  unfold _ensureOpen, _open. destruct (opened st); [auto|].
  intros _. simpl. destruct (has_stat (_underlying st)); reflexivity.
Qed.

(** Opening touches the size, the existence flag and the opened flag only. *)
Lemma ensureOpen_fields (st : Store) :
  _underlying (_ensureOpen st) = _underlying st
  /\ pageSize (_ensureOpen st) = pageSize st
  /\ maxPages (_ensureOpen st) = maxPages st
  /\ _strictSizeLimit (_ensureOpen st) = _strictSizeLimit st
  /\ _pages (_ensureOpen st) = _pages st
  /\ _lru (_ensureOpen st) = _lru st
  /\ _pinnedPages (_ensureOpen st) = _pinnedPages st
  /\ _bitmask (_ensureOpen st) = _bitmask st
  /\ _modifiedPages (_ensureOpen st) = _modifiedPages st.
Proof.
  unfold _ensureOpen, _open. destruct (opened st); [tauto|].
  simpl. destruct (has_stat (_underlying st)); simpl; tauto.
Qed.

(** ** Numbers *)

Lemma to_double_exact (z : Z) : Z.abs z <= 2 ^ 53 -> to_double z = z.
Proof.
  intros Hz. unfold to_double.
  destruct (Z.leb_spec (Z.log2 (Z.abs z) - 52) 0) as [_|He]; [reflexivity|].
  assert (Ha : Z.abs z = 2 ^ 53).
  { assert (Hpos : 0 < Z.abs z).
    { destruct (Z.abs z) eqn:E; try lia. simpl in He. lia. }
    destruct (Z.log2_spec (Z.abs z) Hpos) as [Hlo _].
    assert (2 ^ 53 <= 2 ^ Z.log2 (Z.abs z)) by (apply Z.pow_le_mono_r; lia).
    lia. }
  assert (Hcase : z = 2 ^ 53 \/ z = - 2 ^ 53) by lia.
  destruct Hcase as [->| ->]; reflexivity.
Qed.






(** ** Strict size limit *)

Lemma read_past_limit (st : Store) (L offset size : Z) :
  _strictSizeLimit st = Some L ->
  (opened st = true -> _fileExists st = true) ->
  L < to_double (offset + size) ->
  _read st offset size
  = (_ensureOpen st, Err "Read exceeds strict size enforcement").
Proof.
  intros HL Hwf Hgt.
  destruct (ensureOpen_fields st) as (_ & _ & _ & Hs & _).
  unfold _read. rewrite (ensureOpen_fileExists st Hwf). simpl.
  unfold strict_exceeded. rewrite Hs, HL.
  destruct (Z.ltb_spec L (to_double (offset + size))); [reflexivity|lia].
Qed.

Lemma write_past_limit (st : Store) (L offset : Z) (d : list Z) :
  _strictSizeLimit st = Some L ->
  L < to_double (offset + blen d) ->
  _write st offset d
  = (_ensureOpen st, Err "Write exceeds strict size enforcement").
Proof.
  intros HL Hgt.
  destruct (ensureOpen_fields st) as (_ & _ & _ & Hs & _).
  unfold _write, strict_exceeded. rewrite Hs, HL.
  destruct (Z.ltb_spec L (to_double (offset + blen d))); [reflexivity|lia].
Qed.

(** C5, as stated, fails: with the limit at [2 ^ 53], a read and a write of
    one byte at offset [2 ^ 53] extend past the limit, yet the sum
    [offset + size] rounds back to [2 ^ 53] and both go through. *)
Lemma limit_passed_by_rounding :
  let st := _ensureOpen (create empty_ram limit_2_53) in
  _strictSizeLimit st = Some (2 ^ 53)
  /\ 2 ^ 53 < 2 ^ 53 + 1
  /\ snd (_read st (2 ^ 53) 1) = Ok [0]
  /\ snd (_write st (2 ^ 53) [7]) = Ok tt.
Proof. vm_compute. repeat split; reflexivity. Qed.

(** C5, amended.  With [strictSizeEnforcement = L], a read or a write for
    which [offset + size], as the addition yields it, exceeds [L] fails with
    a message that contains "exceeds strict size enforcement"; the sum is
    the exact one whenever it stays within [2 ^ 53] in magnitude.  The store
    the failure leaves is the store as opened, whose pages are the pages
    before the call, and which is the store itself when it was already
    open. *)
Theorem strict_limit_rejects (st : Store) (L offset size : Z) (d : list Z) :
  _strictSizeLimit st = Some L ->
  (opened st = true -> _fileExists st = true) ->
  (L < to_double (offset + size) ->
     exists msg, _read st offset size = (_ensureOpen st, Err msg)
                 /\ includes msg limit_message = true)
  /\ (L < to_double (offset + blen d) ->
     exists msg, _write st offset d = (_ensureOpen st, Err msg)
                 /\ includes msg limit_message = true)
  /\ (Z.abs (offset + size) <= 2 ^ 53 ->
      to_double (offset + size) = offset + size)
  /\ (Z.abs (offset + blen d) <= 2 ^ 53 ->
      to_double (offset + blen d) = offset + blen d)
  /\ _pages (_ensureOpen st) = _pages st
  /\ (opened st = true -> _ensureOpen st = st).
Proof.
  intros HL Hwf.
  destruct (ensureOpen_fields st) as (_ & _ & _ & _ & Hp & _).
  split; [|split; [|split; [|split; [|split]]]].
  - intros Hgt. exists "Read exceeds strict size enforcement".
    split; [|reflexivity]. apply (read_past_limit st L); assumption.
  - intros Hgt. exists "Write exceeds strict size enforcement".
    split; [|reflexivity]. apply (write_past_limit st L); assumption.
  - apply to_double_exact.
  - apply to_double_exact.
  - exact Hp.
  - apply ensureOpen_of_opened.
Qed.

Lemma strict_limit_rejects_witness :
  (exists msg, _read (_ensureOpen (create empty_ram limit10)) 0 11
               = (_ensureOpen (create empty_ram limit10), Err msg)
               /\ includes msg limit_message = true)
  /\ (exists msg, _write (_ensureOpen (create empty_ram limit10)) 10 [88]
               = (_ensureOpen (create empty_ram limit10), Err msg)
               /\ includes msg limit_message = true).
Proof.
  pose proof (strict_limit_rejects (_ensureOpen (create empty_ram limit10))
                10 0 11 [88; 88; 88; 88; 88; 88; 88; 88; 88; 88; 88]
                eq_refl (fun _ => eq_refl)) as (Hr & _ & _ & _ & _ & Ho).
  pose proof (strict_limit_rejects (_ensureOpen (create empty_ram limit10))
                10 10 0 [88] eq_refl (fun _ => eq_refl))
    as (_ & Hw & _ & _ & _ & _).
  rewrite (Ho eq_refl) in Hr. rewrite (Ho eq_refl) in Hw.
  split; [apply Hr; reflexivity | apply Hw; reflexivity].
Defined.

(** ** Layering on a layered store *)

(** C8, as stated, fails: a nested layer configured with a limit of 10
    loses it when an outer layer without a limit is built on it. *)
Lemma nested_limit_overwritten :
  let inner := constructor (Plain empty_ram) limit10 in
  nested_limit (_underlying (constructor (Layered inner) no_opts))
  <> nested_limit (Layered inner).
Proof. simpl. discriminate. Qed.

(** C8, amended.  The constructor overwrites the strict limit of a nested
    layered store with its own [strictSizeEnforcement] option and leaves
    the other fields of the nested store alone; a plain backend is not
    touched. *)
Theorem constructor_passes_limit_down (u : Underlying) (opts : Opts) :
  _underlying (constructor u opts)
  = match u with
    | Layered inner =>
        Layered (set_strictSizeLimit (opt_strictSizeEnforcement opts) inner)
    | Plain b => Plain b
    end.
Proof. destruct u; reflexivity. Qed.

(** ** What the page loops leave alone *)

Lemma core_fields (st st' : Store) :
  core st' = core st ->
  _underlying st' = _underlying st
  /\ pageSize st' = pageSize st
  /\ maxPages st' = maxPages st
  /\ _strictSizeLimit st' = _strictSizeLimit st
  /\ _autoFlushOnEvict st' = _autoFlushOnEvict st
  /\ _pinnedPages st' = _pinnedPages st
  /\ _bitmask st' = _bitmask st
  /\ _size st' = _size st
  /\ _fileExists st' = _fileExists st
  /\ opened st' = opened st.
Proof.
  destruct st, st'. unfold core. simpl. intros H. inversion H. subst.
  repeat split; reflexivity.
Qed.

Lemma core_set_size (st st' : Store) (n : Z) :
  core st' = core st -> core (set_size n st') = core (set_size n st).
Proof.
  destruct st, st'. unfold core. simpl. intros H. inversion H. subst.
  reflexivity.
Qed.

Lemma onEvict_flag (st : Store) (b : bool) (v : jsval) :
  _onEvict st (JBool b) v = st.
Proof. reflexivity. Qed.

Lemma lru_set_shape (st : Store) (k : Z) :
  exists l, lru_set st k = set_lru l st.
Proof.
  unfold lru_set. destruct (decide (k ∈ _lru st)); [eauto|].
  destruct (Z.of_nat (length (_lru st)) <? maxPages st); [eauto|].
  destruct (last (_lru st)); rewrite ?onEvict_flag; eauto.
Qed.

Lemma install_page_shape (st : Store) (p : Z) (pg : Page) :
  exists l, install_page st p pg
            = set_lru l (set_pages (<[p := pg]> (_pages st)) st).
Proof. unfold install_page. apply lru_set_shape. Qed.

(** A page load either fails and leaves the store as it is, or installs a
    clean page and reorders the LRU list. *)
Lemma loadPage_shape (st : Store) (p : Z) :
  (exists msg, _loadPage st p = (st, Err msg))
  \/ (exists pg l, _loadPage st p
                   = (set_lru l (set_pages (<[p := pg]> (_pages st)) st), Ok pg)
                   /\ modified pg = false).
Proof.
  unfold _loadPage.
  destruct (_fileExists st && has_read (_underlying st));
    [destruct (0 <? _); [destruct (ram_read _ _ _) as [buf|msg]|]|];
    try (left; eauto; fail);
    right;
    match goal with
    | |- context [install_page st p ?pg] =>
        destruct (install_page_shape st p pg) as [l ->]
    end; eauto.
Qed.

(** What a load yields depends on the core of the store only. *)
Lemma loadPage_result_core (st st' : Store) (p : Z) :
  core st' = core st -> snd (_loadPage st' p) = snd (_loadPage st p).
Proof.
  intros H. apply core_fields in H
    as (Hu & Hps & _ & _ & _ & _ & _ & Hsz & Hfe & _).
  unfold _loadPage. rewrite Hu, Hps, Hsz, Hfe. simpl.
  destruct (_fileExists st && has_read (_underlying st)); [|reflexivity].
  destruct (0 <? _); [|reflexivity].
  destruct (ram_read _ _ _); reflexivity.
Qed.

Lemma getPage_shape (st : Store) (p : Z) :
  (exists msg, _getPage st p = (st, Err msg) /\ _pages st !! p = None)
  \/ (exists pg, _getPage st p = (st, Ok pg) /\ _pages st !! p = Some pg)
  \/ (exists pg l, _getPage st p
                   = (set_lru l (set_pages (<[p := pg]> (_pages st)) st), Ok pg)
                   /\ _pages st !! p = None /\ modified pg = false).
Proof.
  unfold _getPage. destruct (_pages st !! p) as [pg|] eqn:E.
  - right. left. eauto.
  - destruct (loadPage_shape st p) as [[msg H]|(pg & l & H & Hm)].
    + left. eauto.
    + right. right. exists pg, l. auto.
Qed.

Lemma getOrCreatePage_getPage (st : Store) (p : Z) :
  _getOrCreatePage st p = _getPage st p.
Proof. reflexivity. Qed.

Lemma getPage_core (st : Store) (p : Z) :
  core (fst (_getPage st p)) = core st.
Proof.
  destruct (getPage_shape st p) as [(m & -> & _)|[(pg & -> & _)|(pg & l & -> & _)]];
    reflexivity.
Qed.

(** ** Delete *)





(** ** Truncate and the pin set *)





(** ** The capacity of the LRU list *)

Lemma lru_delete_length (k : Z) (l : list Z) :
  (length (lru_delete k l) <= length l)%nat.
Proof. apply length_filter. Qed.

Lemma lru_delete_length_in (k : Z) (l : list Z) :
  k ∈ l -> (length (lru_delete k l) < length l)%nat.
Proof.
  unfold lru_delete. induction l as [|x l IH]; intros Hin.
  - inversion Hin.
  - rewrite filter_cons. destruct (decide (x ≠ k)) as [Hne|Heq]; simpl.
    + apply elem_of_cons in Hin as [->|Hin]; [congruence|].
      specialize (IH Hin). lia.
    + pose proof (length_filter (fun y => y ≠ k) l). lia.
Qed.

Lemma lru_get_length (k : Z) (l : list Z) :
  (length (lru_get k l) <= length l)%nat.
Proof.
  unfold lru_get. destruct (decide (k ∈ l)) as [Hin|_]; [|lia].
  simpl. pose proof (lru_delete_length_in k l Hin). lia.
Qed.

Lemma last_elem_of (l : list Z) (x : Z) : last l = Some x -> x ∈ l.
Proof.
  intros H. apply list_elem_of_lookup. exists (pred (length l)).
  rewrite <- last_lookup. exact H.
Qed.

Lemma lru_set_ok (st : Store) (k : Z) : lru_ok st -> lru_ok (lru_set st k).
Proof.
  unfold lru_ok, lru_set. intros [Hmax Hlen].
  destruct (decide (k ∈ _lru st)) as [Hin|_].
  { simpl. pose proof (lru_delete_length_in k _ Hin). lia. }
  destruct (Z.ltb_spec (Z.of_nat (length (_lru st))) (maxPages st)) as [Hlt|Hge].
  { simpl. lia. }
  destruct (last (_lru st)) as [victim|] eqn:E.
  - rewrite onEvict_flag. simpl.
    pose proof (lru_delete_length_in victim _ (last_elem_of _ _ E)). lia.
  - apply last_None in E. rewrite E in *. simpl in *. lia.
Qed.

Lemma loadPage_ok (st : Store) (p : Z) : lru_ok st -> lru_ok (fst (_loadPage st p)).
Proof.
  intros H. unfold _loadPage, install_page.
  repeat match goal with
         | |- context [if ?c then _ else _] => destruct c
         | |- context [match ?r with Ok _ => _ | Err _ => _ end] => destruct r
         end; simpl; try exact H; apply lru_set_ok; exact H.
Qed.

Lemma getPage_ok (st : Store) (p : Z) : lru_ok st -> lru_ok (fst (_getPage st p)).
Proof.
  intros H. unfold _getPage. destruct (_pages st !! p); [exact H|].
  apply loadPage_ok, H.
Qed.

Lemma touchPage_ok (st : Store) (p : Z) : lru_ok st -> lru_ok (_touchPage st p).
Proof.
  unfold lru_ok, _touchPage. simpl. intros [? ?].
  pose proof (lru_get_length p (_lru st)). lia.
Qed.

Lemma evictPage_ok (st : Store) (p : Z) : lru_ok st -> lru_ok (_evictPage st p).
Proof.
  unfold lru_ok, _evictPage. intros [? ?].
  destruct (decide (p ∈ _pinnedPages st)); simpl; [tauto|].
  pose proof (lru_delete_length p (_lru st)). lia.
Qed.

Lemma remove_page_ok (st : Store) (p : Z) : lru_ok st -> lru_ok (remove_page st p).
Proof.
  unfold lru_ok, remove_page. simpl. intros [? ?].
  pose proof (lru_delete_length p (_lru st)). lia.
Qed.

Lemma ensureOpen_ok (st : Store) : lru_ok st -> lru_ok (_ensureOpen st).
Proof.
  unfold lru_ok. destruct (ensureOpen_fields st) as (_ & _ & -> & _ & _ & -> & _).
  tauto.
Qed.

Lemma flushNext_lru (l : list Z) :
  forall (st : Store) (offset end_ startPage endPage : Z),
    _lru (fst (flushNext st offset end_ startPage endPage l)) = _lru st
    /\ maxPages (fst (flushNext st offset end_ startPage endPage l)) = maxPages st.
Proof.
  induction l as [|x l IH]; intros st o e sp ep; simpl.
  - destruct (_ && _); simpl; auto.
  - match goal with
    | |- context [flushNext ?s o e sp ep l] =>
        destruct (IH s o e sp ep) as [-> ->]
    end.
    destruct (_pages st !! x) as [pg|]; [destruct (modified pg)|]; simpl; auto.
Qed.

Lemma flush_ok (st : Store) (o n : Z) : lru_ok st -> lru_ok (fst (flush st o n)).
Proof.
  intros H. apply ensureOpen_ok in H. unfold flush, _performFlush, lru_ok.
  match goal with
  | |- context [flushNext ?s ?a ?b ?c ?d ?l] =>
      destruct (flushNext_lru l s a b c d) as [-> ->]
  end. exact H.
Qed.

Lemma readNext_ok (fuel : nat) :
  forall (st : Store) (n : Z) (buffer : list Z) (br off : Z),
    lru_ok st -> lru_ok (fst (readNext fuel st n buffer br off)).
Proof.
  induction fuel as [|fuel IH]; intros st n buffer br off H; simpl.
  - destruct (n <=? br); exact H.
  - destruct (n <=? br); [exact H|].
    pose proof (getPage_ok st (off / pageSize st) H) as H1.
    destruct (_getPage st (off / pageSize st)) as [st1 [pg|msg]]; simpl in H1.
    + apply IH, touchPage_ok, H1.
    + destruct (includes msg _); [apply IH, H1|exact H1].
Qed.

Lemma writeNext_ok (fuel : nat) :
  forall (st : Store) (ro : Z) (d : list Z) (bw off : Z),
    lru_ok st -> lru_ok (fst (writeNext fuel st ro d bw off)).
Proof.
  induction fuel as [|fuel IH]; intros st ro d bw off H; simpl.
  - destruct (blen d <=? bw); exact H.
  - destruct (blen d <=? bw); [exact H|].
    destruct (_ && _); [apply IH, H|].
    rewrite getOrCreatePage_getPage.
    pose proof (getPage_ok st (off / pageSize st) H) as H1.
    destruct (_getPage st (off / pageSize st)) as [st1 [pg|msg]]; simpl in H1;
      [|exact H1].
    apply IH. simpl. destruct (decide _); [exact H1|].
    apply touchPage_ok. exact H1.
Qed.

Lemma write_ok (st : Store) (o : Z) (d : list Z) :
  lru_ok st -> lru_ok (fst (_write st o d)).
Proof.
  intros H. apply ensureOpen_ok in H. unfold _write.
  destruct (strict_exceeded _ _); [exact H|]. apply writeNext_ok, H.
Qed.

Lemma deleteNext_ok (fuel : nat) :
  forall (st : Store) (ro en bd off : Z),
    lru_ok st -> lru_ok (fst (deleteNext fuel st ro en bd off)).
Proof.
  induction fuel as [|fuel IH]; intros st ro en bd off H; simpl.
  - destruct (en - ro <=? bd); [destruct (en =? _size st)|]; exact H.
  - destruct (en - ro <=? bd); [destruct (en =? _size st); exact H|].
    apply IH. pose proof (getPage_ok st (off / pageSize st) H) as H1.
    destruct (_getPage st (off / pageSize st)) as [st1 [pg|msg]]; exact H1.
Qed.

Lemma remove_pages_ok (l : list Z) :
  forall st : Store, lru_ok st -> lru_ok (foldl remove_page st l).
Proof.
  induction l as [|x l IH]; intros st H; simpl; [exact H|].
  apply IH, remove_page_ok, H.
Qed.

Lemma truncate_ok (st : Store) (n : Z) : lru_ok st -> lru_ok (fst (_truncate st n)).
Proof.
  intros H. apply ensureOpen_ok in H. unfold _truncate.
  destruct (_size (_ensureOpen st) <? n).
  - pose proof (write_ok (_ensureOpen st) (_size (_ensureOpen st))
                  (alloc (n - _size (_ensureOpen st))) H) as H1.
    destruct (_write _ _ _) as [st1 [u|msg]]; exact H1.
  - match goal with
    | |- context [has_truncate (_underlying ?s)] =>
        assert (H3 : lru_ok s); [|destruct (has_truncate (_underlying s)); exact H3]
    end.
    match goal with
    | |- context [foldl remove_page ?s ?l] =>
        assert (H2 : lru_ok (foldl remove_page s l)) by (apply remove_pages_ok, H);
        set (st2 := foldl remove_page s l) in *
    end.
    destruct (_pages st2 !! _); [|exact H2].
    destruct (_ =? 0); [apply remove_page_ok, H2|exact H2].
Qed.

Lemma evictNext_ok (pages : list Z) :
  forall (st : Store) (f : bool) (k i : Z),
    lru_ok st -> lru_ok (evictNext st f k pages i).
Proof.
  induction pages as [|p pages IH]; intros st f k i H; simpl; [exact H|].
  destruct (k <=? i); [exact H|]. apply IH, evictPage_ok.
  destruct f; [apply flush_ok, H|exact H].
Qed.

Lemma step_ok (st : Store) (op : Op) : lru_ok st -> lru_ok (step st op).
Proof.
  intros H. destruct op; simpl.
  - unfold _read. pose proof (ensureOpen_ok st H).
    destruct (negb _); [assumption|]. destruct (strict_exceeded _ _); [assumption|].
    apply readNext_ok. assumption.
  - apply write_ok, H.
  - unfold _del. apply deleteNext_ok, ensureOpen_ok, H.
  - apply truncate_ok, H.
  - apply flush_ok, H.
  - exact H.
  - exact H.
  - apply evictNext_ok, H.
  - exact H.
  - exact H.
Qed.

Lemma create_ok (b : Backend) (opts : Opts) : valid_opts opts -> lru_ok (create b opts).
Proof.
  unfold valid_opts, lru_ok, create, init_fields, num_or.
  cbn [maxPages _lru length].
  destruct (opt_maxPages opts) as [m|]; [|intros _; lia].
  intros Hm. destruct (Z.eqb_spec m 0); lia.
Qed.

(** Pinned pages are exempt from eviction: with [maxPages = 1], two pinned
    pages written by one write are both resident afterwards. *)
Lemma pinned_pages_exceed_maxPages :
  let st := run (create empty_ram one_page) [OPin 0 2; OWrite 0 [7; 8]] in
  ~ (Z.of_nat (size (_pages st)) <= maxPages st).
Proof. vm_compute. intros H. apply H. reflexivity. Qed.

(** The cache itself keeps to its capacity: whatever the operations, the
    number of page indices it tracks never exceeds [maxPages]. *)
Theorem lru_within_maxPages (b : Backend) (opts : Opts) (ops : list Op) :
  valid_opts opts ->
  Z.of_nat (length (_lru (run (create b opts) ops)))
  <= maxPages (run (create b opts) ops).
Proof.
  intros Hv. pose proof (create_ok b opts Hv) as H.
  generalize dependent (create b opts). unfold run.
  induction ops as [|op ops IH]; intros st H; simpl.
  - apply H.
  - apply IH, step_ok, H.
Qed.

Lemma lru_within_maxPages_witness :
  Z.of_nat (length (_lru (run (create empty_ram one_page)
                            [OPin 0 2; OWrite 0 [7; 8]; ORead 0 2])))
  <= maxPages (run (create empty_ram one_page)
                 [OPin 0 2; OWrite 0 [7; 8]; ORead 0 2]).
Proof.
  apply (lru_within_maxPages empty_ram one_page
           [OPin 0 2; OWrite 0 [7; 8]; ORead 0 2]).
  unfold valid_opts, one_page. simpl. lia.
Defined.

(** C9.  The page map outgrows [maxPages] with no page pinned.  The cache
    hands its dispose hook the value first and the key second, so
    [_onEvict] is called with [true] for a page index, finds no page under
    it and drops nothing.  With [maxPages = 2], three one-byte writes on
    three pages leave three resident pages, of which the cache tracks
    two. *)
Theorem page_map_outgrows_maxPages :
  let st := run (create empty_ram two_pages)
              [OWrite 0 [1]; OWrite 4 [2]; OWrite 8 [3]] in
  maxPages st = 2
  /\ _pinnedPages st = ∅
  /\ _lru st = [2; 1]
  /\ is_Some (_pages st !! 0) /\ is_Some (_pages st !! 1)
  /\ is_Some (_pages st !! 2)
  /\ ~ (Z.of_nat (size (_pages st)) <= maxPages st).
Proof.
  vm_compute. repeat split; eauto.
Qed.

(** ** Backend files as byte sequences *)

Lemma nth_replicate0 (n i : nat) : nth i (replicate n 0) 0 = 0.
Proof.
  revert i. induction n as [|n IH]; intros [|i]; simpl; auto.
Qed.

Lemma length_resize (c : list Z) (n : Z) : length (resize c n) = Z.to_nat n.
Proof.
  unfold resize. rewrite length_app, length_take, length_replicate. lia.
Qed.

Lemma nth_resize (c : list Z) (n : Z) (i : nat) :
  nth i (resize c n) 0 = if decide (i < Z.to_nat n)%nat then nth i c 0 else 0.
Proof.
  unfold resize.
  destruct (decide (i < length (take (Z.to_nat n) c))%nat) as [Hlt|Hge].
  - rewrite app_nth1 by exact Hlt. rewrite nth_firstn.
    rewrite length_take in Hlt.
    destruct (Nat.ltb_spec i (Z.to_nat n)); [|lia].
    rewrite decide_True by lia. reflexivity.
  - rewrite app_nth2 by lia. rewrite nth_replicate0.
    rewrite length_take in Hge.
    destruct (decide (i < Z.to_nat n)%nat); [|reflexivity].
    symmetry. apply nth_overflow. lia.
Qed.


Lemma nth_write_bytes (c : list Z) (off : Z) (buf : list Z) (i : nat) :
  nth i (write_bytes c off buf) 0
  = if decide (Z.to_nat off <= i < Z.to_nat off + length buf)%nat
    then nth (i - Z.to_nat off) buf 0
    else nth i c 0.
Proof.
  unfold write_bytes.
  assert (Hl : length (take (Z.to_nat off) (resize c off)) = Z.to_nat off).
  { rewrite length_take, length_resize. lia. }
  destruct (decide (i < Z.to_nat off)%nat) as [Hlt|Hge].
  - rewrite app_nth1 by lia. rewrite nth_firstn.
    destruct (Nat.ltb_spec i (Z.to_nat off)); [|lia].
    rewrite nth_resize, decide_True by lia.
    rewrite decide_False by lia. reflexivity.
  - rewrite app_nth2 by lia. rewrite Hl.
    destruct (decide (i - Z.to_nat off < length buf)%nat) as [Hin|Hout].
    + rewrite app_nth1 by lia. rewrite decide_True by lia. reflexivity.
    + rewrite app_nth2 by lia. rewrite nth_skipn, decide_False by lia.
      f_equal. lia.
Qed.


Lemma nth_apply_writes (ws : list (Z * list Z)) (i : nat) :
  forall c, nth i (apply_writes c ws) 0 = overlay_at ws i (nth i c 0).
Proof.
  induction ws as [|w ws IH]; intros c; simpl; [reflexivity|].
  unfold apply_writes in *. simpl. rewrite IH, nth_write_bytes. reflexivity.
Qed.




(** ** Flush *)

Lemma flush_core_fields (st st' : Store) :
  flush_core st' = flush_core st ->
  pageSize st' = pageSize st
  /\ _size st' = _size st
  /\ opened st' = opened st
  /\ has_read (_underlying st') = has_read (_underlying st)
  /\ has_truncate (_underlying st') = has_truncate (_underlying st)
  /\ has_stat (_underlying st') = has_stat (_underlying st).
Proof.
  destruct st as [[] ], st' as [[] ]. unfold flush_core, core. simpl.
  intros H. inversion H. subst. repeat split; reflexivity.
Qed.



Lemma flush_write_data (st st' : Store) (o e sp ep p : Z) :
  pageSize st' = pageSize st ->
  (forall q, data <$> _pages st' !! q = data <$> _pages st !! q) ->
  flush_write st' o e sp ep p = flush_write st o e sp ep p.
Proof.
  intros Hps Hd. unfold flush_write. rewrite Hps. f_equal.
  specialize (Hd p).
  destruct (_pages st' !! p) as [pg'|], (_pages st !! p) as [pg|];
    simpl in Hd; try discriminate; [|reflexivity].
  injection Hd as ->. reflexivity.
Qed.

Lemma flushNext_step (st : Store) (o e sp ep x : Z) (l : list Z) :
  flushNext st o e sp ep (x :: l)
  = flushNext
      (let st1 :=
         set_underlying
           (ram_write (_underlying st) (fst (flush_write st o e sp ep x))
              (snd (flush_write st o e sp ep x))) st in
       match _pages st !! x with
       | Some pg => if modified pg then clear_modified x pg st1 else st1
       | None => st1
       end) o e sp ep l.
Proof. reflexivity. Qed.

Lemma flushNext_spec (o e sp ep : Z) (l : list Z) :
  forall st : Store,
  exists st',
    flushNext st o e sp ep l = (st', Ok tt)
    /\ flush_core st' = flush_core st
    /\ _lru st' = _lru st
    /\ contents (_underlying st')
       = settle ((_size st <? e) && has_truncate (_underlying st)) (_size st)
           (apply_writes (contents (_underlying st))
              (map (flush_write st o e sp ep) l))
    /\ (forall p, data <$> _pages st' !! p = data <$> _pages st !! p)
    /\ all_clean st' (fun p => p ∈ l)
    /\ (forall p, p ∉ l -> _pages st' !! p = _pages st !! p).
Proof.
  induction l as [|x l IH]; intros st.
  - simpl. destruct ((_size st <? e) && has_truncate (_underlying st)) eqn:E;
      eexists; (split; [reflexivity|]); simpl;
      (repeat split; try reflexivity);
      intros p pg Hin; inversion Hin.
  - rewrite flushNext_step.
    set (w := flush_write st o e sp ep x).
    set (st1 := set_underlying (ram_write (_underlying st) (fst w) (snd w)) st).
    set (st2 := match _pages st !! x with
                | Some pg => if modified pg then clear_modified x pg st1 else st1
                | None => st1
                end).
    assert (Hcore : flush_core st2 = flush_core st).
    { unfold st2. destruct (_pages st !! x) as [pg|]; [destruct (modified pg)|];
        reflexivity. }
    assert (Hlru : _lru st2 = _lru st).
    { unfold st2. destruct (_pages st !! x) as [pg|]; [destruct (modified pg)|];
        reflexivity. }
    assert (Hcont : contents (_underlying st2)
                    = write_bytes (contents (_underlying st)) (fst w) (snd w)).
    { unfold st2. destruct (_pages st !! x) as [pg|]; [destruct (modified pg)|];
        reflexivity. }
    assert (Hdata : forall p, data <$> _pages st2 !! p = data <$> _pages st !! p).
    { intros p. unfold st2. destruct (_pages st !! x) as [pg|] eqn:Ex;
        [destruct (modified pg)|]; try reflexivity.
      simpl. destruct (decide (p = x)) as [->|Hne].
      - rewrite lookup_insert_eq, Ex. reflexivity.
      - rewrite lookup_insert_ne by congruence. reflexivity. }
    assert (Hx : forall pg, _pages st2 !! x = Some pg -> modified pg = false).
    { intros pg. unfold st2. destruct (_pages st !! x) as [pg0|] eqn:Ex.
      - destruct (modified pg0) eqn:Em; simpl.
        + rewrite lookup_insert_eq. intros [= <-]. reflexivity.
        + rewrite Ex. intros [= <-]. exact Em.
      - simpl. rewrite Ex. discriminate. }
    assert (Hother : forall p, p <> x -> _pages st2 !! p = _pages st !! p).
    { intros p Hne. unfold st2. destruct (_pages st !! x) as [pg0|];
        [destruct (modified pg0)|]; try reflexivity.
      simpl. apply lookup_insert_ne. congruence. }
    destruct (flush_core_fields _ _ Hcore) as (Hps & Hsz & _ & _ & Htr & _).
    destruct (IH st2) as (st' & Hrun & Hc' & Hl' & Hb' & Hd' & Hcl' & Ho').
    exists st'. split; [exact Hrun|].
    split; [congruence|]. split; [congruence|]. split.
    { rewrite Hb', Hsz, Htr, Hcont. simpl. f_equal. f_equal.
      apply map_ext. intros p. apply flush_write_data; assumption. }
    split; [intros p; rewrite Hd'; apply Hdata|].
    split.
    { intros p pg Hin Hp. destruct (decide (p ∈ l)) as [Hpl|Hnl].
      - apply (Hcl' p pg Hpl Hp).
      - rewrite (Ho' p Hnl) in Hp.
        apply elem_of_cons in Hin as [->|Hin]; [|contradiction].
        apply (Hx pg Hp). }
    intros p Hnin. rewrite Ho' by (intros Hc; apply Hnin; right; exact Hc).
    apply Hother. intros ->. apply Hnin. left.
Qed.




(** ** Page buffers *)

Lemma length_subarray (b : list Z) (s e : Z) :
  0 <= s -> s <= e -> e <= blen b ->
  length (subarray b s e) = Z.to_nat (e - s).
Proof.
  unfold subarray, blen. intros. rewrite length_take, length_drop. lia.
Qed.

Lemma nth_buf_set (dst src : list Z) (off : Z) (i : nat) :
  (Z.to_nat off + length src <= length dst)%nat ->
  nth i (buf_set dst src off) 0
  = if decide (Z.to_nat off <= i < Z.to_nat off + length src)%nat
    then nth (i - Z.to_nat off) src 0
    else nth i dst 0.
Proof.
  intros Hfit. unfold buf_set.
  assert (Hl : length (take (Z.to_nat off) dst) = Z.to_nat off)
    by (rewrite length_take; lia).
  destruct (decide (i < Z.to_nat off)%nat).
  - rewrite app_nth1 by lia. rewrite nth_firstn.
    destruct (Nat.ltb_spec i (Z.to_nat off)); [|lia].
    rewrite decide_False by lia. reflexivity.
  - rewrite app_nth2 by lia. rewrite Hl.
    destruct (decide (i - Z.to_nat off < length src)%nat).
    + rewrite app_nth1 by lia. rewrite decide_True by lia. reflexivity.
    + rewrite app_nth2 by lia. rewrite nth_skipn, decide_False by lia.
      f_equal. lia.
Qed.


(** Growing a page buffer appends zeroes. *)
Lemma buf_copy_grow (src : list Z) (m : Z) :
  blen src < m ->
  buf_copy src (alloc m) = src ++ replicate (Z.to_nat m - length src) 0.
Proof.
  unfold buf_copy, alloc, blen. intros Hlt.
  rewrite length_replicate, take_ge by lia. f_equal.
  rewrite drop_replicate. reflexivity.
Qed.

Lemma length_grown (b : list Z) (m : Z) : (Z.to_nat m <= length (grown b m))%nat.
Proof.
  unfold grown. destruct (Z.ltb_spec (blen b) m) as [Hlt|Hge].
  - rewrite buf_copy_grow by exact Hlt. rewrite length_app, length_replicate. lia.
  - unfold blen in Hge. lia.
Qed.

Lemma nth_grown (b : list Z) (m : Z) (i : nat) :
  nth i (grown b m) 0 = nth i b 0.
Proof.
  unfold grown. destruct (Z.ltb_spec (blen b) m) as [Hlt|Hge]; [|reflexivity].
  rewrite buf_copy_grow by exact Hlt.
  destruct (decide (i < length b)%nat).
  - apply app_nth1. lia.
  - rewrite app_nth2 by lia. rewrite nth_replicate0.
    symmetry. apply nth_overflow. lia.
Qed.

Lemma write_page_data (page : Page) (po n : Z) (chunk : list Z) :
  data (write_page page po n chunk) = buf_set (grown (data page) (po + n)) chunk po.
Proof. reflexivity. Qed.

(** The bytes just written are on the page. *)
Lemma write_page_sub (page : Page) (po n : Z) (chunk : list Z) :
  0 <= po -> 0 <= n -> length chunk = Z.to_nat n ->
  subarray (data (write_page page po n chunk)) po (po + n) = chunk.
Proof.
  intros Hpo Hn Hlen. rewrite write_page_data. unfold subarray, buf_set.
  pose proof (length_grown (data page) (po + n)) as Hg.
  rewrite drop_app_length' by (rewrite length_take; lia).
  replace (Z.to_nat (po + n) - Z.to_nat po)%nat with (length chunk) by lia.
  apply take_app_length.
Qed.

(** The other bytes of the page read as before. *)
Lemma write_page_out (page : Page) (po n : Z) (chunk : list Z) (j : Z) :
  0 <= po -> 0 <= n -> length chunk = Z.to_nat n ->
  0 <= j -> ~ (po <= j < po + n) ->
  byte_at (data (write_page page po n chunk)) j = byte_at (data page) j.
Proof.
  intros Hpo Hn Hlen Hj Hout. unfold byte_at. rewrite write_page_data.
  pose proof (length_grown (data page) (po + n)) as Hg.
  rewrite nth_buf_set by lia. rewrite decide_False by lia.
  apply nth_grown.
Qed.

(** ** Page arithmetic *)

Lemma page_split (off ps : Z) :
  0 <= off -> 0 < ps ->
  off = off / ps * ps + Z.rem off ps /\ 0 <= Z.rem off ps < ps.
Proof.
  intros Hoff Hps. rewrite Z.rem_mod_nonneg by lia.
  pose proof (Z.div_mod off ps). pose proof (Z.mod_pos_bound off ps). lia.
Qed.

Lemma pages_apart (p q ps : Z) : 0 < ps -> p < q -> (p + 1) * ps <= q * ps.
Proof. intros. nia. Qed.

(** ** What a page fetch changes *)

Lemma getPage_result_congr (st st' : Store) (p : Z) :
  core st' = core st -> _pages st' !! p = _pages st !! p ->
  snd (_getPage st' p) = snd (_getPage st p).
Proof.
  intros Hc Hp. unfold _getPage. rewrite Hp.
  destruct (_pages st !! p); [reflexivity|]. apply loadPage_result_core, Hc.
Qed.

Lemma getPage_effect (st st1 : Store) (p : Z) (pg : Page) :
  _getPage st p = (st1, Ok pg) ->
  core st1 = core st
  /\ _modifiedPages st1 = _modifiedPages st
  /\ _pages st1 !! p = Some pg
  /\ (forall q, q <> p -> _pages st1 !! q = _pages st !! q).
Proof.
  intros H.
  destruct (getPage_shape st p)
    as [(m & E & _)|[(pg1 & E & Hp)|(pg1 & l & E & Hp & _)]];
    rewrite E in H; inversion H; subst.
  - repeat split; auto.
  - simpl. repeat split; [apply lookup_insert_eq|].
    intros q Hq. apply lookup_insert_ne. congruence.
Qed.

Lemma isBitSet_core (st st' : Store) (a n : Z) :
  core st' = core st -> _isBitSet st' a n = _isBitSet st a n.
Proof.
  intros H. apply core_fields in H as (_ & _ & _ & _ & _ & _ & Hb & _).
  unfold _isBitSet. rewrite Hb. reflexivity.
Qed.

Lemma skip_test (st : Store) (a n : Z) :
  bool_decide (is_Some (_bitmask st)) && negb (_isBitSet st a n)
  = negb (_isBitSet st a n).
Proof.
  unfold _isBitSet. destruct (_bitmask st) as [b|].
  - rewrite bool_decide_eq_true_2 by eauto. reflexivity.
  - rewrite bool_decide_eq_false_2 by (intros [x Hx]; discriminate). reflexivity.
Qed.

(** ** What a write does to each page *)

Lemma part_core (st st' : Store) (a p : Z) :
  core st' = core st ->
  part_lo st' a p = part_lo st a p /\ part_hi st' a p = part_hi st a p.
Proof.
  intros H. apply core_fields in H as (_ & Hps & _).
  unfold part_lo, part_hi. rewrite Hps. split; reflexivity.
Qed.

Lemma hit_core (st st' : Store) (a b p : Z) :
  core st' = core st -> hit st' a b p = hit st a b p.
Proof.
  intros H. unfold hit.
  destruct (part_core st st' a p H) as [-> _].
  destruct (part_core st st' b p H) as [_ ->].
  rewrite (isBitSet_core st st') by exact H. reflexivity.
Qed.

Lemma hit_false_empty (st : Store) (a b p : Z) :
  part_hi st b p <= part_lo st a p -> hit st a b p = false.
Proof.
  intros H. unfold hit. rewrite bool_decide_eq_false_2 by lia. reflexivity.
Qed.

Lemma page_kept_refl (st : Store) (p : Z) : page_kept st st p.
Proof. split; reflexivity. Qed.

Lemma page_kept_trans (st1 st2 st3 : Store) (p : Z) :
  page_kept st1 st2 p -> page_kept st2 st3 p -> page_kept st1 st3 p.
Proof. intros [H1 H2] [H3 H4]. split; [congruence|tauto]. Qed.

Lemma page_written_then_kept (st st3 st' : Store) (o : Z) (d : list Z)
    (lo hi p : Z) :
  page_written st st3 o d lo hi p -> page_kept st3 st' p ->
  page_written st st' o d lo hi p.
Proof.
  intros (pg0 & pg' & H1 & H2 & H3 & H4 & H5 & H6) [Hk1 Hk2].
  exists pg0, pg'. repeat split; try assumption; [congruence|tauto].
Qed.

Lemma kept_then_page_written (st st3 st' : Store) (o : Z) (d : list Z)
    (lo hi p : Z) :
  core st3 = core st -> page_kept st st3 p ->
  page_written st3 st' o d lo hi p -> page_written st st' o d lo hi p.
Proof.
  intros Hc [Hk1 Hk2] (pg0 & pg' & H1 & H2 & H3 & H4 & H5 & H6).
  pose proof (core_fields _ _ Hc) as (_ & Hps & _).
  rewrite Hps in H4, H5.
  exists pg0, pg'. repeat split; try assumption.
  rewrite <- H1. symmetry. apply getPage_result_congr; assumption.
Qed.

Lemma writeNext_S (fuel : nat) (st : Store) (o : Z) (d : list Z) (bw off : Z) :
  writeNext (S fuel) st o d bw off
  = if blen d <=? bw
    then (set_size (Z.max (_size st) (o + blen d)) st, Ok tt)
    else
      let pageIndex := off / pageSize st in
      let pageOffset := Z.rem off (pageSize st) in
      let bytesToWrite := Z.min (pageSize st - pageOffset) (blen d - bw) in
      if bool_decide (is_Some (_bitmask st)) && negb (_isBitSet st off bytesToWrite)
      then writeNext fuel st o d (bw + bytesToWrite) (off + bytesToWrite)
      else
        match _getOrCreatePage st pageIndex with
        | (st1, Err msg) => (st1, Err msg)
        | (st1, Ok page) =>
            let page' :=
              write_page page pageOffset bytesToWrite
                (subarray d bw (bw + bytesToWrite)) in
            let st2 :=
              set_modifiedPages ({[pageIndex]} ∪ _modifiedPages st1)
                (set_pages (<[pageIndex := page']> (_pages st1)) st1) in
            let st3 :=
              if decide (pageIndex ∈ _pinnedPages st2) then st2
              else _touchPage st2 pageIndex in
            writeNext fuel st3 o d (bw + bytesToWrite) (off + bytesToWrite)
        end.
Proof. reflexivity. Qed.

Lemma writeNext_done_spec (st : Store) (o : Z) (d : list Z) (off : Z) :
  o + blen d <= off ->
  forall p,
    (hit st off (o + blen d) p = true ->
       page_written st (set_size (Z.max (_size st) (o + blen d)) st) o d
         (part_lo st off p) (part_hi st (o + blen d) p) p)
    /\ (hit st off (o + blen d) p = false ->
       page_kept st (set_size (Z.max (_size st) (o + blen d)) st) p).
Proof.
  intros Hoff p.
  rewrite hit_false_empty by (unfold part_lo, part_hi; lia).
  split; [discriminate|]. intros _. split; reflexivity.
Qed.

Lemma writeNext_spec (o : Z) (d : list Z) (fuel : nat) :
  forall (st st' : Store) (bw off : Z),
    0 < pageSize st -> 0 <= o -> 0 <= bw -> off = o + bw ->
    writeNext fuel st o d bw off = (st', Ok tt) ->
    core st' = core (set_size (Z.max (_size st) (o + blen d)) st)
    /\ forall p,
         (hit st off (o + blen d) p = true ->
            page_written st st' o d
              (part_lo st off p) (part_hi st (o + blen d) p) p)
         /\ (hit st off (o + blen d) p = false -> page_kept st st' p).
Proof.
  induction fuel as [|fuel IH]; intros st st' bw off Hps Ho Hbw Hoff Hrun.
  - simpl in Hrun. destruct (Z.leb_spec (blen d) bw) as [Hdone|Hlt]; [|discriminate].
    injection Hrun as <-. split; [reflexivity|]. apply writeNext_done_spec. lia.
  - rewrite writeNext_S in Hrun.
    destruct (Z.leb_spec (blen d) bw) as [Hdone|Hlt].
    { injection Hrun as <-. split; [reflexivity|].
      apply writeNext_done_spec. lia. }
    destruct (page_split off (pageSize st)) as [Hsplit Hrem]; [lia|lia|].
    cbv zeta in Hrun.
    set (p0 := off / pageSize st) in *.
    set (po := Z.rem off (pageSize st)) in *.
    set (n := Z.min (pageSize st - po) (blen d - bw)) in *.
    assert (Hn : 1 <= n) by (unfold n; lia).
    assert (Hlo0 : part_lo st off p0 = off) by (unfold part_lo; lia).
    assert (Hhi0 : part_hi st (o + blen d) p0 = off + n)
      by (unfold part_hi, n; lia).
    (* the store after this turn of the loop *)
    assert (Hstep : exists st3,
      writeNext fuel st3 o d (bw + n) (off + n) = (st', Ok tt)
      /\ core st3 = core st
      /\ (forall q, q <> p0 -> page_kept st st3 q)
      /\ (if _isBitSet st off n
          then page_written st st3 o d off (off + n) p0
          else page_kept st st3 p0)).
    { rewrite skip_test in Hrun.
      destruct (_isBitSet st off n) eqn:Ebit; simpl in Hrun.
      - rewrite getOrCreatePage_getPage in Hrun.
        destruct (_getPage st p0) as [st1 [page|msg]] eqn:Eget; [|discriminate].
        destruct (getPage_effect _ _ _ _ Eget) as (Hc1 & Hm1 & Hp1 & Hq1).
        eexists. split; [exact Hrun|].
        assert (Hlen : length (subarray d bw (bw + n)) = Z.to_nat n).
        { rewrite length_subarray by lia. f_equal. lia. }
        split; [destruct (decide _); exact Hc1|].
        split.
        + intros q Hq. split.
          * destruct (decide _); simpl; rewrite lookup_insert_ne by congruence;
              apply Hq1, Hq.
          * destruct (decide _); simpl; rewrite Hm1; set_solver.
        + exists page, (write_page page po n (subarray d bw (bw + n))).
          split; [rewrite Eget; reflexivity|].
          split; [destruct (decide _); simpl; apply lookup_insert_eq|].
          split; [reflexivity|].
          replace (off - p0 * pageSize st) with po by lia.
          replace (off + n - p0 * pageSize st) with (po + n) by lia.
          replace (off - o) with bw by lia.
          replace (off + n - o) with (bw + n) by lia.
          split; [apply write_page_sub; lia|].
          split; [intros j Hj Hout; apply write_page_out; lia|].
          destruct (decide _); simpl; set_solver.
      - exists st. split; [exact Hrun|]. split; [reflexivity|].
        split; [intros; apply page_kept_refl|apply page_kept_refl]. }
    destruct Hstep as (st3 & Hrun3 & Hc3 & Hq3 & Hp03).
    pose proof (core_fields _ _ Hc3) as (_ & Hps3 & _ & _ & _ & _ & _ & Hsz3 & _).
    destruct (IH st3 st' (bw + n) (off + n)) as [Hcore HP];
      [rewrite Hps3; lia | lia | lia | lia | exact Hrun3 |].
    split. { rewrite Hcore, Hsz3. apply core_set_size, Hc3. }
    intros p. specialize (HP p). rewrite (hit_core st st3) in HP by exact Hc3.
    destruct (part_core st st3 (off + n) p Hc3) as [Hlo3 _].
    destruct (part_core st st3 (o + blen d) p Hc3) as [_ Hhi3].
    rewrite Hlo3, Hhi3 in HP. destruct HP as [Hw Hk].
    destruct (Z.lt_trichotomy p p0) as [Hlt0|[->|Hgt0]].
    + (* a page before the current one holds no part of what is left *)
      pose proof (pages_apart p p0 (pageSize st) Hps Hlt0) as Hap.
      rewrite hit_false_empty by (unfold part_lo, part_hi; fold p0 in Hsplit; lia).
      rewrite hit_false_empty in Hk
        by (unfold part_lo, part_hi; fold p0 in Hsplit; lia).
      split; [discriminate|]. intros _.
      eapply page_kept_trans; [apply Hq3; lia|apply Hk; reflexivity].
    + (* the current page *)
      rewrite hit_false_empty in Hk by (unfold part_lo, part_hi; lia).
      specialize (Hk eq_refl).
      assert (Hhit : hit st off (o + blen d) p0 = _isBitSet st off n).
      { unfold hit. rewrite Hlo0, Hhi0, bool_decide_eq_true_2 by lia.
        simpl. f_equal. lia. }
      rewrite Hhit, Hlo0, Hhi0. destruct (_isBitSet st off n).
      * split; [|discriminate]. intros _.
        eapply page_written_then_kept; eassumption.
      * split; [discriminate|]. intros _.
        eapply page_kept_trans; eassumption.
    + (* a later page: its part of the range is unchanged *)
      pose proof (pages_apart p0 p (pageSize st) Hps Hgt0) as Hap.
      assert (Hlo : part_lo st (off + n) p = part_lo st off p)
        by (unfold part_lo, n; fold p0 in Hsplit; lia).
      assert (Hh : hit st (off + n) (o + blen d) p = hit st off (o + blen d) p)
        by (unfold hit; rewrite Hlo; reflexivity).
      rewrite Hh, Hlo in *. split.
      * intros H. eapply kept_then_page_written;
          [exact Hc3 | apply Hq3; lia | apply Hw, H].
      * intros H. eapply page_kept_trans; [apply Hq3; lia|apply Hk, H].
Qed.

Lemma write_spec (st st' : Store) (o : Z) (d : list Z) :
  0 < pageSize st -> 0 <= o ->
  _write st o d = (st', Ok tt) ->
  strict_exceeded (_ensureOpen st) (o + blen d) = false
  /\ core st'
     = core (set_size (Z.max (_size (_ensureOpen st)) (o + blen d))
               (_ensureOpen st))
  /\ forall p,
       (hit (_ensureOpen st) o (o + blen d) p = true ->
          page_written (_ensureOpen st) st' o d
            (part_lo (_ensureOpen st) o p)
            (part_hi (_ensureOpen st) (o + blen d) p) p)
       /\ (hit (_ensureOpen st) o (o + blen d) p = false ->
          page_kept (_ensureOpen st) st' p).
Proof.
  intros Hps Ho. unfold _write.
  destruct (strict_exceeded (_ensureOpen st) (o + blen d)); [discriminate|].
  intros Hrun. split; [reflexivity|].
  apply (writeNext_spec o d (length d) (_ensureOpen st) st' 0 o);
    try lia; [|exact Hrun].
  destruct (ensureOpen_fields st) as (_ & -> & _). exact Hps.
Qed.

(** A store that a write has left is open, and keeps the configuration of
    the store the write started from. *)
Lemma write_leaves_open (st st' : Store) (o : Z) (d : list Z) :
  0 < pageSize st -> 0 <= o ->
  (opened st = true -> _fileExists st = true) ->
  _write st o d = (st', Ok tt) ->
  _ensureOpen st' = st'
  /\ _fileExists st' = true
  /\ pageSize st' = pageSize st
  /\ _strictSizeLimit st' = _strictSizeLimit (_ensureOpen st)
  /\ _bitmask st' = _bitmask st.
Proof.
  intros Hps Ho Hwf Hrun.
  destruct (write_spec st st' o d Hps Ho Hrun) as (_ & Hcore & _).
  apply core_fields in Hcore
    as (_ & Hps' & _ & Hst & _ & _ & Hbm & _ & Hfe & Hop).
  simpl in *.
  destruct (ensureOpen_fields st) as (_ & Hps0 & _ & _ & _ & _ & _ & Hbm0 & _).
  repeat split.
  - apply ensureOpen_of_opened. rewrite Hop. apply ensureOpen_opened.
  - rewrite Hfe. apply ensureOpen_fileExists, Hwf.
  - congruence.
  - exact Hst.
  - congruence.
Qed.

(** ** Reading back *)

Lemma readNext_S (fuel : nat) (st : Store) (n : Z) (buffer : list Z) (br off : Z) :
  readNext (S fuel) st n buffer br off
  = if n <=? br then (st, Ok buffer)
    else
      let pageIndex := off / pageSize st in
      let pageOffset := Z.rem off (pageSize st) in
      let bytesToRead := Z.min (pageSize st - pageOffset) (n - br) in
      match _getPage st pageIndex with
      | (st1, Err msg) =>
          if includes msg "Read exceeds storage size"
          then readNext fuel st1 n buffer (br + bytesToRead) (off + bytesToRead)
          else (st1, Err msg)
      | (st1, Ok page) =>
          readNext fuel (_touchPage st1 pageIndex) n
            (buf_set buffer
               (subarray (data page) pageOffset (pageOffset + bytesToRead)) br)
            (br + bytesToRead) (off + bytesToRead)
      end.
Proof. reflexivity. Qed.





(** ** Reading one byte *)


Lemma byte_at_subarray (l : list Z) (a b j : Z) :
  0 <= a -> a <= j < b -> byte_at (subarray l a b) (j - a) = byte_at l j.
Proof.
  intros Ha Hj. unfold byte_at, subarray. rewrite nth_firstn.
  destruct (Nat.ltb_spec (Z.to_nat (j - a)) (Z.to_nat b - Z.to_nat a)); [|lia].
  rewrite nth_skipn. f_equal. lia.
Qed.


(** ** The bits of the mask *)

Lemma bit_ok_testbit (B : list Z) (k : Z) :
  0 <= k ->
  bit_ok B k
  = bool_decide (k / 8 < blen B) && Z.testbit (byte_at B (k / 8)) (k mod 8).
Proof.
  intros Hk. unfold bit_ok. rewrite Z.rem_mod_nonneg by lia.
  destruct (Z.leb_spec (blen B) (k / 8)) as [Hout|Hin].
  - rewrite bool_decide_eq_false_2 by lia. reflexivity.
  - rewrite bool_decide_eq_true_2 by lia. simpl.
    rewrite Z.testbit_odd.
    set (y := Z.shiftr (byte_at B (k / 8)) (k mod 8)).
    change 1 with (Z.ones 1). rewrite Z.land_ones by lia.
    change (2 ^ 1) with 2. rewrite Zmod_odd.
    destruct (Z.odd y); reflexivity.
Qed.

Lemma isBitSet_spec (st : Store) (B : list Z) (a n : Z) :
  _bitmask st = Some B ->
  _isBitSet st a n = true <-> forall k, a <= k < a + n -> bit_ok B k = true.
Proof.
  intros HB. unfold _isBitSet. rewrite HB, forallb_forall. split.
  - intros H k Hk. replace k with (a + (k - a)) by lia.
    apply H, list_elem_of_In, elem_of_seqZ. lia.
  - intros H i Hin. apply list_elem_of_In, elem_of_seqZ in Hin. apply H. lia.
Qed.


(** ** The steps given to the page loops suffice *)

Lemma getPage_error (st : Store) (p : Z) (msg : string) :
  snd (_getPage st p) = Err msg -> msg = "Could not satisfy length".
Proof.
  unfold _getPage. destruct (_pages st !! p); [discriminate|].
  unfold _loadPage.
  destruct (_fileExists st && has_read (_underlying st)); [|discriminate].
  destruct (0 <? _); [|discriminate].
  unfold ram_read. destruct (blen _ <? _); simpl; [congruence|discriminate].
Qed.

Lemma writeNext_steps (o : Z) (d : list Z) (fuel : nat) :
  forall (st : Store) (bw off : Z),
    0 < pageSize st -> 0 <= off ->
    (Z.to_nat (blen d - bw) <= fuel)%nat ->
    snd (writeNext fuel st o d bw off) <> Err fuel_exhausted.
Proof.
  induction fuel as [|fuel IH]; intros st bw off Hps Hoff Hfuel.
  - simpl. destruct (Z.leb_spec (blen d) bw); [discriminate|lia].
  - rewrite writeNext_S. destruct (Z.leb_spec (blen d) bw); [discriminate|].
    destruct (page_split off (pageSize st) Hoff Hps) as [_ Hrem].
    cbv zeta.
    set (n := Z.min (pageSize st - Z.rem off (pageSize st)) (blen d - bw)).
    assert (1 <= n) by (unfold n; lia).
    destruct (_ && _); [apply IH; lia|].
    rewrite getOrCreatePage_getPage.
    pose proof (getPage_core st (off / pageSize st)) as Hc.
    pose proof (getPage_error st (off / pageSize st)) as He.
    destruct (_getPage st (off / pageSize st)) as [st1 [pg|msg]]; simpl in *.
    + apply core_fields in Hc as (_ & Hps1 & _).
      apply IH; [|lia|lia].
      destruct (decide _); simpl; rewrite Hps1; exact Hps.
    + rewrite (He msg eq_refl). discriminate.
Qed.

Lemma write_steps_suffice (st : Store) (o : Z) (d : list Z) :
  0 < pageSize st -> 0 <= o -> snd (_write st o d) <> Err fuel_exhausted.
Proof.
  intros Hps Ho. unfold _write.
  destruct (strict_exceeded _ _); [discriminate|].
  apply writeNext_steps; [|lia|unfold blen; lia].
  destruct (ensureOpen_fields st) as (_ & -> & _). exact Hps.
Qed.

(** ** Writes and the rest of the page *)






(** ** The bitmask gate *)







Lemma readNext_steps (fuel : nat) :
  forall (st : Store) (n : Z) (buffer : list Z) (br off : Z),
    0 < pageSize st -> 0 <= off ->
    (Z.to_nat (n - br) <= fuel)%nat ->
    snd (readNext fuel st n buffer br off) <> Err fuel_exhausted.
Proof.
  induction fuel as [|fuel IH]; intros st n buffer br off Hps Hoff Hfuel.
  - simpl. destruct (Z.leb_spec n br); [discriminate|lia].
  - rewrite readNext_S. destruct (Z.leb_spec n br); [discriminate|].
    destruct (page_split off (pageSize st) Hoff Hps) as [_ Hrem].
    cbv zeta.
    set (k := Z.min (pageSize st - Z.rem off (pageSize st)) (n - br)).
    assert (1 <= k) by (unfold k; lia).
    pose proof (getPage_core st (off / pageSize st)) as Hc.
    pose proof (getPage_error st (off / pageSize st)) as He.
    destruct (_getPage st (off / pageSize st)) as [st1 [pg|msg]]; simpl in *.
    + apply core_fields in Hc as (_ & Hps1 & _).
      apply IH; [|lia|lia]. simpl. rewrite Hps1. exact Hps.
    + rewrite (He msg eq_refl). simpl. discriminate.
Qed.

Lemma read_steps_suffice (st : Store) (o n : Z) :
  0 < pageSize st -> 0 <= o -> snd (_read st o n) <> Err fuel_exhausted.
Proof.
  intros Hps Ho. unfold _read.
  destruct (negb _); [discriminate|].
  destruct (strict_exceeded _ _); [discriminate|].
  apply readNext_steps; [|lia|lia].
  destruct (ensureOpen_fields st) as (_ & -> & _). exact Hps.
Qed.

(** In the strict variant a read past the strict limit fails as well, with
    the message of the size check when the range also ends past the size,
    and leaves the store as opened. *)
Lemma strict_variant_rejects_past_limit (st : Store) (L offset size : Z) :
  _strictSizeLimit st = Some L ->
  (opened st = true -> _fileExists st = true) ->
  L < to_double (offset + size) ->
  exists msg, Strict._read st offset size = (_ensureOpen st, Err msg).
Proof.
  intros HL Hwf Hgt. unfold Strict._read.
  destruct (_size (_ensureOpen st) <? offset + size); [eauto|].
  rewrite (read_past_limit (_ensureOpen st) L), ensureOpen_idem; [eauto| | |exact Hgt].
  - destruct (ensureOpen_fields st) as (_ & _ & _ & -> & _). exact HL.
  - intros _. apply ensureOpen_fileExists, Hwf.
Qed.

(** ** Well-formed stores *)

Lemma wf_core (st st' : Store) : core st' = core st -> wf st -> wf st'.
Proof.
  intros H. apply core_fields in H
    as (_ & Hps & _ & _ & _ & _ & _ & _ & Hfe & Hop).
  unfold wf. rewrite Hps, Hfe, Hop. tauto.
Qed.

Lemma wf_ensureOpen (st : Store) : wf st -> wf (_ensureOpen st).
Proof.
  intros [Hps Hfe]. split.
  - destruct (ensureOpen_fields st) as (_ & -> & _). exact Hps.
  - intros _. apply ensureOpen_fileExists, Hfe.
Qed.

Lemma flush_core_fileExists (st st' : Store) :
  flush_core st' = flush_core st -> _fileExists st' = _fileExists st.
Proof.
  destruct st as [[] ], st' as [[] ]. unfold flush_core, core. simpl.
  intros H. inversion H. reflexivity.
Qed.

Lemma wf_flush_core (st st' : Store) :
  flush_core st' = flush_core st -> wf st -> wf st'.
Proof.
  intros H. pose proof (flush_core_fileExists _ _ H) as Hfe.
  apply flush_core_fields in H as (Hps & _ & Hop & _).
  unfold wf. rewrite Hps, Hfe, Hop. tauto.
Qed.

Lemma wf_flush (st : Store) (o n : Z) : wf st -> wf (fst (flush st o n)).
Proof.
  intros H. apply wf_ensureOpen in H. unfold flush, _performFlush.
  match goal with
  | |- context [flushNext ?s ?a ?b ?c ?d ?l] =>
      destruct (flushNext_spec a b c d l s) as (st1 & -> & Hc & _)
  end.
  exact (wf_flush_core _ _ Hc H).
Qed.

Lemma wf_getPage (st : Store) (p : Z) : wf st -> wf (fst (_getPage st p)).
Proof. apply wf_core, getPage_core. Qed.

Lemma wf_evictPage (st : Store) (p : Z) : wf st -> wf (_evictPage st p).
Proof.
  unfold _evictPage. destruct (decide _); [tauto|]. apply wf_core. reflexivity.
Qed.

Lemma wf_readNext (fuel : nat) :
  forall (st : Store) (n : Z) (buffer : list Z) (br off : Z),
    wf st -> wf (fst (readNext fuel st n buffer br off)).
Proof.
  induction fuel as [|fuel IH]; intros st n buffer br off H; simpl.
  - destruct (n <=? br); exact H.
  - destruct (n <=? br); [exact H|].
    pose proof (wf_getPage st (off / pageSize st) H) as H1.
    destruct (_getPage st (off / pageSize st)) as [st1 [pg|msg]]; simpl in H1.
    + apply IH. exact H1.
    + destruct (includes msg _); [apply IH, H1|exact H1].
Qed.

Lemma wf_writeNext (fuel : nat) :
  forall (st : Store) (ro : Z) (d : list Z) (bw off : Z),
    wf st -> wf (fst (writeNext fuel st ro d bw off)).
Proof.
  induction fuel as [|fuel IH]; intros st ro d bw off H; simpl.
  - destruct (blen d <=? bw); exact H.
  - destruct (blen d <=? bw); [exact H|].
    destruct (_ && _); [apply IH, H|].
    rewrite getOrCreatePage_getPage.
    pose proof (wf_getPage st (off / pageSize st) H) as H1.
    destruct (_getPage st (off / pageSize st)) as [st1 [pg|msg]]; simpl in H1;
      [|exact H1].
    apply IH. destruct (decide _); exact H1.
Qed.

Lemma wf_write (st : Store) (o : Z) (d : list Z) :
  wf st -> wf (fst (_write st o d)).
Proof.
  intros H. apply wf_ensureOpen in H. unfold _write.
  destruct (strict_exceeded _ _); [exact H|]. apply wf_writeNext, H.
Qed.

Lemma wf_deleteNext (fuel : nat) :
  forall (st : Store) (ro en bd off : Z),
    wf st -> wf (fst (deleteNext fuel st ro en bd off)).
Proof.
  induction fuel as [|fuel IH]; intros st ro en bd off H; simpl.
  - destruct (en - ro <=? bd); [destruct (en =? _size st)|]; exact H.
  - destruct (en - ro <=? bd); [destruct (en =? _size st); exact H|].
    apply IH. pose proof (wf_getPage st (off / pageSize st) H) as H1.
    destruct (_getPage st (off / pageSize st)) as [st1 [pg|msg]]; exact H1.
Qed.

Lemma wf_remove_pages (l : list Z) :
  forall st : Store, wf st -> wf (foldl remove_page st l).
Proof.
  induction l as [|x l IH]; intros st H; simpl; [exact H|].
  apply IH. exact H.
Qed.

Lemma wf_truncate (st : Store) (n : Z) : wf st -> wf (fst (_truncate st n)).
Proof.
  intros H. apply wf_ensureOpen in H. unfold _truncate.
  destruct (_size (_ensureOpen st) <? n).
  - pose proof (wf_write (_ensureOpen st) (_size (_ensureOpen st))
                  (alloc (n - _size (_ensureOpen st))) H) as H1.
    destruct (_write _ _ _) as [st1 [u|msg]]; exact H1.
  - match goal with
    | |- context [has_truncate (_underlying ?s)] =>
        assert (H3 : wf s); [|destruct (has_truncate (_underlying s)); exact H3]
    end.
    match goal with
    | |- context [foldl remove_page ?s ?l] =>
        assert (H2 : wf (foldl remove_page s l)) by (apply wf_remove_pages, H);
        set (st2 := foldl remove_page s l) in *
    end.
    destruct (_pages st2 !! _); [|exact H2].
    destruct (_ =? 0); exact H2.
Qed.

Lemma wf_evictNext (pages : list Z) :
  forall (st : Store) (f : bool) (k i : Z), wf st -> wf (evictNext st f k pages i).
Proof.
  induction pages as [|p pages IH]; intros st f k i H; simpl; [exact H|].
  destruct (k <=? i); [exact H|]. apply IH, wf_evictPage.
  destruct f; [apply wf_flush, H|exact H].
Qed.

Lemma wf_step (st : Store) (op : Op) : wf st -> wf (step st op).
Proof.
  intros H. destruct op; simpl.
  - unfold _read. pose proof (wf_ensureOpen st H).
    destruct (negb _); [assumption|]. destruct (strict_exceeded _ _); [assumption|].
    apply wf_readNext. assumption.
  - apply wf_write, H.
  - unfold _del. apply wf_deleteNext, wf_ensureOpen, H.
  - apply wf_truncate, H.
  - apply wf_flush, H.
  - exact H.
  - exact H.
  - apply wf_evictNext, H.
  - exact H.
  - exact H.
Qed.

(** Every store reached from the constructor is well formed: the
    hypotheses on the store in the theorems above hold of it. *)
Lemma wf_run (b : Backend) (opts : Opts) (ops : list Op) :
  valid_page_size opts -> wf (run (create b opts) ops).
Proof.
  intros Hv.
  assert (H : wf (create b opts)).
  { unfold wf, create, init_fields, num_or, valid_page_size in *.
    cbn [pageSize opened _fileExists].
    split; [|discriminate].
    destruct (opt_pageSize opts) as [v|]; [|lia].
    destruct (Z.eqb_spec v 0); lia. }
  generalize dependent (create b opts). unfold run.
  induction ops as [|op ops IH]; intros st H; simpl; [exact H|].
  apply IH, wf_step, H.
Qed.

(** * Further properties of the code *)

(** ** What a reader sees *)

Lemma getPage_stable (st : Store) (p q : Z) :
  snd (_getPage (fst (_getPage st p)) q) = snd (_getPage st q).
Proof.
  destruct (getPage_shape st p)
    as [(m & E & _)|[(pg & E & _)|(pg & l & E & Hnone & _)]];
    rewrite E; simpl; try reflexivity.
  destruct (decide (q = p)) as [->|Hne].
  - rewrite E. simpl. unfold _getPage at 1. simpl.
    rewrite lookup_insert_eq. reflexivity.
  - apply getPage_result_congr; [reflexivity|]. simpl.
    apply lookup_insert_ne. congruence.
Qed.

Lemma same_view_refl (st : Store) : same_view st st.
Proof. split; reflexivity. Qed.

Lemma same_view_trans (s1 s2 s3 : Store) :
  same_view s1 s2 -> same_view s2 s3 -> same_view s1 s3.
Proof.
  intros [H1 H2] [H3 H4]. split; [congruence|]. intros p. rewrite H4. apply H2.
Qed.

Lemma same_view_sym (s1 s2 : Store) : same_view s1 s2 -> same_view s2 s1.
Proof. intros [H1 H2]. split; [congruence|]. intros p. symmetry. apply H2. Qed.

Lemma same_view_getPage (st : Store) (p : Z) : same_view st (fst (_getPage st p)).
Proof.
  split.
  - pose proof (getPage_core st p) as H. apply core_fields in H as (_ & H & _).
    exact H.
  - intros q. apply getPage_stable.
Qed.

Lemma same_view_touch (st : Store) (p : Z) : same_view st (_touchPage st p).
Proof.
  split; [reflexivity|]. intros q. apply getPage_result_congr; reflexivity.
Qed.

(** The read loop leaves the view as it found it. *)
Lemma readNext_view (fuel : nat) :
  forall (st : Store) (n : Z) (buffer : list Z) (br off : Z),
    same_view st (fst (readNext fuel st n buffer br off)).
Proof.
  induction fuel as [|fuel IH]; intros st n buffer br off.
  - simpl. destruct (n <=? br); apply same_view_refl.
  - rewrite readNext_S. destruct (n <=? br); [apply same_view_refl|].
    cbv zeta. pose proof (same_view_getPage st (off / pageSize st)) as H1.
    destruct (_getPage st (off / pageSize st)) as [st1 [pg|msg]]; simpl in H1.
    + eapply same_view_trans; [exact H1|].
      eapply same_view_trans; [apply same_view_touch|apply IH].
    + destruct (includes msg _); [|exact H1].
      eapply same_view_trans; [exact H1|apply IH].
Qed.

(** What the read loop returns depends on the view only. *)
Lemma readNext_congr (fuel : nat) :
  forall (st st' : Store) (n : Z) (buffer : list Z) (br off : Z),
    same_view st st' ->
    snd (readNext fuel st' n buffer br off) = snd (readNext fuel st n buffer br off).
Proof.
  induction fuel as [|fuel IH]; intros st st' n buffer br off Hv.
  - simpl. destruct (n <=? br); reflexivity.
  - rewrite !readNext_S. destruct (n <=? br); [reflexivity|].
    cbv zeta. destruct Hv as [Hps Hp]. rewrite Hps.
    pose proof (Hp (off / pageSize st)) as Hres.
    pose proof (same_view_getPage st (off / pageSize st)) as H1.
    pose proof (same_view_getPage st' (off / pageSize st)) as H1'.
    assert (Hv1 : same_view (fst (_getPage st (off / pageSize st)))
                    (fst (_getPage st' (off / pageSize st)))).
    { eapply same_view_trans; [apply same_view_sym, H1|].
      eapply same_view_trans; [split; [exact Hps|exact Hp]|exact H1']. }
    destruct (_getPage st (off / pageSize st)) as [st1 [pg|msg]],
             (_getPage st' (off / pageSize st)) as [st1' [pg'|msg']];
      simpl in *; try discriminate.
    + injection Hres as ->. apply IH.
      eapply same_view_trans; [apply same_view_sym, same_view_touch|].
      eapply same_view_trans; [exact Hv1|apply same_view_touch].
    + injection Hres as ->. destruct (includes msg _); [|reflexivity].
      apply IH, Hv1.
Qed.

Lemma ensureOpen_set_bitmask (st : Store) (b : option (list Z)) :
  _ensureOpen (set_bitmask b st) = set_bitmask b (_ensureOpen st).
Proof.
  unfold _ensureOpen, _open. simpl. destruct (opened st); [reflexivity|].
  destruct (has_stat (_underlying st)); reflexivity.
Qed.

Lemma same_view_set_bitmask (st : Store) (b : option (list Z)) :
  same_view st (set_bitmask b st).
Proof.
  split; [reflexivity|]. intros p. unfold _getPage, _loadPage. simpl.
  destruct (_pages st !! p); [reflexivity|].
  destruct (_fileExists st && has_read (_underlying st)); [|reflexivity].
  destruct (0 <? _); [|reflexivity].
  destruct (ram_read _ _ _); reflexivity.
Qed.

Lemma read_ignores_mask (st : Store) (b : option (list Z)) (o n : Z) :
  snd (_read (set_bitmask b st) o n) = snd (_read st o n).
Proof.
  unfold _read. rewrite ensureOpen_set_bitmask.
  change (_fileExists (set_bitmask b (_ensureOpen st)))
    with (_fileExists (_ensureOpen st)).
  change (strict_exceeded (set_bitmask b (_ensureOpen st)) (o + n))
    with (strict_exceeded (_ensureOpen st) (o + n)).
  destruct (negb _); [reflexivity|].
  destruct (strict_exceeded _ _); [reflexivity|].
  apply readNext_congr, same_view_set_bitmask.
Qed.

(** ** Loads change nothing a writer made *)

Lemma loads_only_refl (st : Store) : loads_only st st.
Proof. split; [reflexivity|]. split; [reflexivity|]. intros p. left. reflexivity. Qed.

Lemma loads_only_trans (s1 s2 s3 : Store) :
  loads_only s1 s2 -> loads_only s2 s3 -> loads_only s1 s3.
Proof.
  intros (Hc1 & Hm1 & Hp1) (Hc2 & Hm2 & Hp2).
  split; [congruence|]. split; [congruence|]. intros p.
  destruct (Hp1 p) as [H1|(H1 & pg1 & H1' & Hcl1)],
           (Hp2 p) as [H2|(H2 & pg2 & H2' & Hcl2)].
  - left. congruence.
  - right. split; [congruence|]. eauto.
  - right. split; [exact H1|]. exists pg1. split; [congruence|exact Hcl1].
  - congruence.
Qed.

Lemma loads_only_getPage (st : Store) (p : Z) : loads_only st (fst (_getPage st p)).
Proof.
  destruct (getPage_shape st p)
    as [(m & E & _)|[(pg & E & _)|(pg & l & E & Hnone & Hcl)]];
    rewrite E; simpl; try apply loads_only_refl.
  split; [reflexivity|]. split; [reflexivity|]. intros q. simpl.
  destruct (decide (q = p)) as [->|Hne].
  - right. split; [exact Hnone|]. exists pg.
    split; [apply lookup_insert_eq|exact Hcl].
  - left. apply lookup_insert_ne. congruence.
Qed.

Lemma loads_only_touch (st : Store) (p : Z) : loads_only st (_touchPage st p).
Proof. split; [reflexivity|]. split; [reflexivity|]. intros q. left. reflexivity. Qed.

Lemma readNext_loads (fuel : nat) :
  forall (st : Store) (n : Z) (buffer : list Z) (br off : Z),
    loads_only st (fst (readNext fuel st n buffer br off)).
Proof.
  induction fuel as [|fuel IH]; intros st n buffer br off.
  - simpl. destruct (n <=? br); apply loads_only_refl.
  - rewrite readNext_S. destruct (n <=? br); [apply loads_only_refl|].
    cbv zeta. pose proof (loads_only_getPage st (off / pageSize st)) as H1.
    destruct (_getPage st (off / pageSize st)) as [st1 [pg|msg]]; simpl in H1.
    + eapply loads_only_trans; [exact H1|].
      eapply loads_only_trans; [apply loads_only_touch|apply IH].
    + destruct (includes msg _); [|exact H1].
      eapply loads_only_trans; [exact H1|apply IH].
Qed.

Lemma read_loads (st : Store) (o n : Z) :
  loads_only (_ensureOpen st) (fst (_read st o n)).
Proof.
  unfold _read. destruct (negb _); [apply loads_only_refl|].
  destruct (strict_exceeded _ _); [apply loads_only_refl|].
  apply readNext_loads.
Qed.

(** X1.  A read changes nothing but which pages are resident and the LRU
    order: the backend, the size, the pins, the bitmask and the dirty set
    are those of the store as opened; a page that was resident is still
    there, unchanged; a page that has become resident is clean. *)
Theorem read_only_loads (st : Store) (o n : Z) (p : Z) :
  _underlying (fst (_read st o n)) = _underlying st
  /\ _size (fst (_read st o n)) = _size (_ensureOpen st)
  /\ _pinnedPages (fst (_read st o n)) = _pinnedPages st
  /\ _bitmask (fst (_read st o n)) = _bitmask st
  /\ _modifiedPages (fst (_read st o n)) = _modifiedPages st
  /\ (_pages (fst (_read st o n)) !! p = _pages st !! p
      \/ (_pages st !! p = None
          /\ exists pg, _pages (fst (_read st o n)) !! p = Some pg
                        /\ modified pg = false)).
Proof.
  destruct (read_loads st o n) as (Hc & Hm & Hp).
  apply core_fields in Hc as (Hu & _ & _ & _ & _ & Hpin & Hbm & Hsz & _).
  destruct (ensureOpen_fields st)
    as (Hu0 & _ & _ & _ & Hpg0 & _ & Hpin0 & Hbm0 & Hm0).
  rewrite Hu, Hsz, Hpin, Hbm, Hm, Hu0, Hpin0, Hbm0, Hm0.
  repeat split. rewrite <- Hpg0. apply Hp.
Qed.

(** X2.  Reading the same range twice gives the same outcome twice: the
    same bytes, or the same error. *)
Theorem read_twice_same (st : Store) (o n : Z) :
  snd (_read (fst (_read st o n)) o n) = snd (_read st o n).
Proof.
  destruct (read_loads st o n) as (Hc & _).
  apply core_fields in Hc as (_ & _ & _ & Hlim & _ & _ & _ & _ & Hfe & Hop).
  assert (Hopen : _ensureOpen (fst (_read st o n)) = fst (_read st o n)).
  { apply ensureOpen_of_opened. rewrite Hop. apply ensureOpen_opened. }
  unfold _read at 1. rewrite Hopen, Hfe.
  assert (Hs : strict_exceeded (fst (_read st o n)) (o + n)
               = strict_exceeded (_ensureOpen st) (o + n))
    by (unfold strict_exceeded; rewrite Hlim; reflexivity).
  rewrite Hs. unfold _read.
  destruct (negb (_fileExists (_ensureOpen st))); [reflexivity|].
  destruct (strict_exceeded (_ensureOpen st) (o + n)); [reflexivity|].
  apply readNext_congr, readNext_view.
Qed.

(** X3.  The bitmask gates writes only: installing a mask, or clearing it,
    does not change what a read returns. *)
Theorem bitmask_never_gates_reads (st : Store) (B : list Z) (o n : Z) :
  snd (_read (setBitmask st B) o n) = snd (_read st o n)
  /\ snd (_read (clearBitmask st) o n) = snd (_read st o n).
Proof. split; apply read_ignores_mask. Qed.

(** ** Reading where nothing was written *)






(** ** Writes and deletes stay in the overlay *)

Lemma shell_fields (st st' : Store) :
  shell st' = shell st ->
  _underlying st' = _underlying st
  /\ pageSize st' = pageSize st
  /\ maxPages st' = maxPages st
  /\ _strictSizeLimit st' = _strictSizeLimit st
  /\ _pinnedPages st' = _pinnedPages st
  /\ _bitmask st' = _bitmask st
  /\ _fileExists st' = _fileExists st
  /\ opened st' = opened st.
Proof.
  destruct st, st'. unfold shell, core. simpl. intros H. inversion H. subst.
  repeat split; reflexivity.
Qed.

Lemma shell_of_core (st st' : Store) : core st' = core st -> shell st' = shell st.
Proof. unfold shell. intros ->. reflexivity. Qed.

Lemma writeNext_shell (fuel : nat) :
  forall (st : Store) (ro : Z) (d : list Z) (bw off : Z),
    shell (fst (writeNext fuel st ro d bw off)) = shell st.
Proof.
  induction fuel as [|fuel IH]; intros st ro d bw off.
  - simpl. destruct (blen d <=? bw); reflexivity.
  - rewrite writeNext_S. destruct (blen d <=? bw); [reflexivity|].
    cbv zeta. destruct (_ && _); [apply IH|].
    rewrite getOrCreatePage_getPage.
    pose proof (getPage_core st (off / pageSize st)) as Hc.
    apply shell_of_core in Hc.
    destruct (_getPage st (off / pageSize st)) as [st1 [pg|msg]]; simpl in Hc;
      [|exact Hc].
    rewrite IH. destruct (decide _); exact Hc.
Qed.

Lemma deleteNext_shell (fuel : nat) :
  forall (st : Store) (ro en bd off : Z),
    shell (fst (deleteNext fuel st ro en bd off)) = shell st.
Proof.
  induction fuel as [|fuel IH]; intros st ro en bd off; simpl.
  - destruct (en - ro <=? bd); [destruct (en =? _size st)|]; reflexivity.
  - destruct (en - ro <=? bd); [destruct (en =? _size st); reflexivity|].
    rewrite IH. pose proof (getPage_core st (off / pageSize st)) as Hc.
    apply shell_of_core in Hc.
    destruct (_getPage st (off / pageSize st)) as [st1 [pg|msg]]; exact Hc.
Qed.

Lemma shell_ensureOpen_fields (st : Store) :
  _underlying (_ensureOpen st) = _underlying st
  /\ _pinnedPages (_ensureOpen st) = _pinnedPages st
  /\ _bitmask (_ensureOpen st) = _bitmask st.
Proof.
  destruct (ensureOpen_fields st) as (H1 & _ & _ & _ & _ & _ & H2 & H3 & _).
  auto.
Qed.

(** X5.  A write and a delete, whether they succeed or fail, work on the
    overlay only: the backend holds afterwards exactly what it held before,
    and the pin set and the bitmask are unchanged. *)
Theorem write_and_del_keep_backend (st : Store) (o : Z) (d : list Z) (s : jsnum) :
  (_underlying (fst (_write st o d)) = _underlying st
   /\ _pinnedPages (fst (_write st o d)) = _pinnedPages st
   /\ _bitmask (fst (_write st o d)) = _bitmask st)
  /\ (_underlying (fst (_del st o s)) = _underlying st
      /\ _pinnedPages (fst (_del st o s)) = _pinnedPages st
      /\ _bitmask (fst (_del st o s)) = _bitmask st).
Proof.
  destruct (shell_ensureOpen_fields st) as (Hu & Hp & Hb).
  split.
  - assert (H : shell (fst (_write st o d)) = shell (_ensureOpen st)).
    { unfold _write. destruct (strict_exceeded _ _); [reflexivity|].
      apply writeNext_shell. }
    apply shell_fields in H as (H1 & _ & _ & _ & H2 & H3 & _).
    rewrite H1, H2, H3. auto.
  - assert (H : shell (fst (_del st o s)) = shell (_ensureOpen st)).
    { unfold _del. apply deleteNext_shell. }
    apply shell_fields in H as (H1 & _ & _ & _ & H2 & H3 & _).
    rewrite H1, H2, H3. auto.
Qed.

(** X6.  A write that completes leaves [size = max(size, o + d.length)],
    the size before being that of the store as opened: the size covers the
    whole request and never shrinks.  The request ends within [2 ^ 53],
    where the sum [o + d.length] is the exact one. *)
Theorem write_sets_size (st st' : Store) (o : Z) (d : list Z) :
  0 < pageSize st -> 0 <= o -> o + blen d <= 2 ^ 53 ->
  _write st o d = (st', Ok tt) ->
  _size st' = Z.max (_size (_ensureOpen st)) (o + blen d).
Proof.
  intros Hps Ho _ Hrun.
  destruct (write_spec st st' o d Hps Ho Hrun) as (_ & Hcore & _).
  apply core_fields in Hcore as (_ & _ & _ & _ & _ & _ & _ & Hsz & _).
  exact Hsz.
Qed.

Lemma write_sets_size_witness :
  _size (fst (_write (create ram_nines small_pages) 2 [7; 7]))
  = Z.max (_size (_ensureOpen (create ram_nines small_pages))) (2 + blen [7; 7]).
Proof.
  apply (write_sets_size (create ram_nines small_pages)
           (fst (_write (create ram_nines small_pages) 2 [7; 7])) 2 [7; 7]).
  - reflexivity.
  - lia.
  - vm_compute. discriminate.
  - vm_compute. reflexivity.
Defined.

(** ** The bookkeeping of the overlay *)

Lemma consistent_eq (st st' : Store) :
  _lru st' = _lru st -> _pages st' = _pages st ->
  _modifiedPages st' = _modifiedPages st ->
  consistent st -> consistent st'.
Proof. unfold consistent. intros -> -> ->. tauto. Qed.

Lemma lru_delete_elem (k x : Z) (l : list Z) :
  x ∈ lru_delete k l <-> x ∈ l /\ x <> k.
Proof. unfold lru_delete. rewrite list_elem_of_filter. tauto. Qed.

Lemma lru_delete_NoDup (k : Z) (l : list Z) : NoDup l -> NoDup (lru_delete k l).
Proof. apply NoDup_filter. Qed.

Lemma consistent_set_lru (st : Store) (l : list Z) :
  consistent st -> NoDup l -> (forall k, k ∈ l -> k ∈ _lru st) ->
  consistent (set_lru l st).
Proof.
  intros (Hnd & Hin & Hm) Hl Hsub. split; [exact Hl|]. split; [|exact Hm].
  intros k Hk. apply Hin, Hsub, Hk.
Qed.

Lemma lru_set_consistent (st : Store) (k : Z) :
  consistent st -> is_Some (_pages st !! k) -> consistent (lru_set st k).
Proof.
  intros (Hnd & Hin & Hm) Hk. unfold lru_set.
  assert (Hgen : forall l, NoDup l -> k ∉ l -> (forall x, x ∈ l -> x ∈ _lru st) ->
                   consistent (set_lru (k :: l) st)).
  { intros l Hl Hkl Hsub. split; [|split; [|exact Hm]].
    - simpl. apply NoDup_cons. auto.
    - simpl. intros x Hx. apply elem_of_cons in Hx as [->|Hx]; [exact Hk|].
      apply Hin, Hsub, Hx. }
  destruct (decide (k ∈ _lru st)) as [Hkin|Hkn].
  { apply Hgen; [apply lru_delete_NoDup, Hnd| |].
    - rewrite lru_delete_elem. tauto.
    - intros x Hx. apply lru_delete_elem in Hx. tauto. }
  destruct (Z.of_nat (length (_lru st)) <? maxPages st).
  { apply Hgen; auto. }
  destruct (last (_lru st)) as [victim|].
  - rewrite onEvict_flag. apply Hgen; [apply lru_delete_NoDup, Hnd| |].
    + rewrite lru_delete_elem. tauto.
    + intros x Hx. apply lru_delete_elem in Hx. tauto.
  - apply Hgen; auto.
Qed.

Lemma install_page_consistent (st : Store) (p : Z) (pg : Page) :
  consistent st -> _pages st !! p = None -> modified pg = false ->
  consistent (install_page st p pg).
Proof.
  intros (Hnd & Hin & Hm) Hp Hpg. unfold install_page.
  apply lru_set_consistent; [|simpl; rewrite lookup_insert_eq; eauto].
  split; [exact Hnd|]. split; simpl.
  - intros k Hk. destruct (decide (k = p)) as [->|Hne].
    + rewrite lookup_insert_eq. eauto.
    + rewrite lookup_insert_ne by congruence. apply Hin, Hk.
  - intros q. rewrite Hm. destruct (decide (q = p)) as [->|Hne].
    + rewrite lookup_insert_eq, Hp. split.
      * intros (x & Hx & _). discriminate.
      * intros (x & [= <-] & Hx). congruence.
    + rewrite lookup_insert_ne by congruence. reflexivity.
Qed.

Lemma getPage_consistent (st : Store) (p : Z) :
  consistent st -> consistent (fst (_getPage st p)).
Proof.
  intros H. unfold _getPage. destruct (_pages st !! p) as [pg|] eqn:E; [exact H|].
  unfold _loadPage.
  repeat match goal with
         | |- context [if ?c then _ else _] => destruct c
         | |- context [match ?r with Ok _ => _ | Err _ => _ end] => destruct r
         end; simpl; try exact H; apply install_page_consistent; auto.
Qed.

Lemma getPage_is_resident (st st1 : Store) (p : Z) (pg : Page) :
  _getPage st p = (st1, Ok pg) -> is_Some (_pages st1 !! p).
Proof. intros H. apply getPage_effect in H as (_ & _ & -> & _). eauto. Qed.

Lemma touchPage_consistent (st : Store) (p : Z) :
  consistent st -> consistent (_touchPage st p).
Proof.
  intros H. unfold _touchPage, lru_get.
  destruct (decide (p ∈ _lru st)) as [Hin|Hn].
  - pose proof H as (Hnd & _). apply consistent_set_lru; [exact H| |].
    + apply NoDup_cons. split; [|apply lru_delete_NoDup, Hnd].
      rewrite lru_delete_elem. tauto.
    + intros k Hk. apply elem_of_cons in Hk as [->|Hk]; [exact Hin|].
      apply lru_delete_elem in Hk. tauto.
  - apply consistent_set_lru; [exact H|apply H|auto].
Qed.

(** Storing a page flagged modified and adding it to the dirty set. *)
Lemma mark_consistent (st : Store) (p : Z) (pg : Page) :
  consistent st -> modified pg = true ->
  consistent (set_modifiedPages ({[p]} ∪ _modifiedPages st)
                (set_pages (<[p := pg]> (_pages st)) st)).
Proof.
  intros (Hnd & Hin & Hm) Hpg. split; [exact Hnd|]. split; simpl.
  - intros k Hk. destruct (decide (k = p)) as [->|Hne].
    + rewrite lookup_insert_eq. eauto.
    + rewrite lookup_insert_ne by congruence. apply Hin, Hk.
  - intros q. destruct (decide (q = p)) as [->|Hne].
    + rewrite lookup_insert_eq. split; [eauto|set_solver].
    + rewrite lookup_insert_ne by congruence. rewrite <- Hm. set_solver.
Qed.

(** Dropping a page from the page map, the LRU list and the dirty set. *)
Lemma drop_consistent (st st' : Store) (p : Z) :
  consistent st ->
  _pages st' = delete p (_pages st) ->
  _lru st' = lru_delete p (_lru st) ->
  _modifiedPages st' = _modifiedPages st ∖ {[p]} ->
  consistent st'.
Proof.
  intros (Hnd & Hin & Hm) Hp Hl Hd. unfold consistent. rewrite Hp, Hl, Hd.
  split; [apply lru_delete_NoDup, Hnd|]. split.
  - intros k Hk. apply lru_delete_elem in Hk as [Hk Hne].
    rewrite lookup_delete_ne by congruence. apply Hin, Hk.
  - intros q. destruct (decide (q = p)) as [->|Hne].
    + rewrite lookup_delete_eq. split; [set_solver|].
      intros (x & Hx & _). discriminate.
    + rewrite lookup_delete_ne by congruence. rewrite <- Hm. set_solver.
Qed.

Lemma evictPage_consistent (st : Store) (p : Z) :
  consistent st -> consistent (_evictPage st p).
Proof.
  intros H. unfold _evictPage. destruct (decide _); [exact H|].
  apply (drop_consistent st _ p H); reflexivity.
Qed.

Lemma remove_page_consistent (st : Store) (p : Z) :
  consistent st -> consistent (remove_page st p).
Proof. intros H. apply (drop_consistent st _ p H); reflexivity. Qed.

Lemma remove_pages_consistent (l : list Z) :
  forall st : Store, consistent st -> consistent (foldl remove_page st l).
Proof.
  induction l as [|x l IH]; intros st H; simpl; [exact H|].
  apply IH, remove_page_consistent, H.
Qed.

Lemma ensureOpen_consistent (st : Store) :
  consistent st -> consistent (_ensureOpen st).
Proof.
  destruct (ensureOpen_fields st) as (_ & _ & _ & _ & Hp & Hl & _ & _ & Hm).
  apply consistent_eq; assumption.
Qed.

Lemma clear_modified_consistent (st : Store) (x : Z) (pg : Page) :
  consistent st -> _pages st !! x = Some pg ->
  consistent (clear_modified x pg st).
Proof.
  intros (Hnd & Hin & Hm) Hx. unfold clear_modified.
  split; [exact Hnd|]. split; simpl.
  - intros k Hk. destruct (decide (k = x)) as [->|Hne].
    + rewrite lookup_insert_eq. eauto.
    + rewrite lookup_insert_ne by congruence. apply Hin, Hk.
  - intros q. destruct (decide (q = x)) as [->|Hne].
    + rewrite lookup_insert_eq. split; [set_solver|].
      intros (y & [= <-] & Hy). discriminate.
    + rewrite lookup_insert_ne by congruence. rewrite <- Hm. set_solver.
Qed.

Lemma flushNext_consistent (l : list Z) :
  forall (st : Store) (o e sp ep : Z),
    consistent st -> consistent (fst (flushNext st o e sp ep l)).
Proof.
  induction l as [|x l IH]; intros st o e sp ep H.
  - simpl. destruct (_ && _); [|exact H].
    revert H. apply consistent_eq; reflexivity.
  - rewrite flushNext_step. apply IH. cbv zeta.
    match goal with
    | |- context [set_underlying ?u st] =>
        assert (H1 : consistent (set_underlying u st))
          by (revert H; apply consistent_eq; reflexivity);
        set (st1 := set_underlying u st) in *
    end.
    destruct (_pages st !! x) as [pg|] eqn:Ex; [|exact H1].
    destruct (modified pg); [|exact H1].
    apply clear_modified_consistent; [exact H1|exact Ex].
Qed.

Lemma flush_consistent (st : Store) (o n : Z) :
  consistent st -> consistent (fst (flush st o n)).
Proof.
  intros H. unfold flush, _performFlush.
  apply flushNext_consistent, ensureOpen_consistent, H.
Qed.

Lemma readNext_consistent (fuel : nat) :
  forall (st : Store) (n : Z) (buffer : list Z) (br off : Z),
    consistent st -> consistent (fst (readNext fuel st n buffer br off)).
Proof.
  induction fuel as [|fuel IH]; intros st n buffer br off H; simpl.
  - destruct (n <=? br); exact H.
  - destruct (n <=? br); [exact H|].
    pose proof (getPage_consistent st (off / pageSize st) H) as H1.
    destruct (_getPage st (off / pageSize st)) as [st1 [pg|msg]]; simpl in H1.
    + apply IH, touchPage_consistent, H1.
    + destruct (includes msg _); [apply IH, H1|exact H1].
Qed.

Lemma writeNext_consistent (fuel : nat) :
  forall (st : Store) (ro : Z) (d : list Z) (bw off : Z),
    consistent st -> consistent (fst (writeNext fuel st ro d bw off)).
Proof.
  induction fuel as [|fuel IH]; intros st ro d bw off H.
  - simpl. destruct (blen d <=? bw); [|exact H].
    revert H. apply consistent_eq; reflexivity.
  - rewrite writeNext_S. destruct (blen d <=? bw).
    { revert H. apply consistent_eq; reflexivity. }
    cbv zeta. destruct (_ && _); [apply IH, H|].
    rewrite getOrCreatePage_getPage.
    pose proof (getPage_consistent st (off / pageSize st) H) as H1.
    destruct (_getPage st (off / pageSize st)) as [st1 [pg|msg]]; simpl in H1;
      [|exact H1].
    apply IH.
    match goal with
    | |- consistent (if _ then ?s else _) =>
        assert (H2 : consistent s) by (apply mark_consistent; [exact H1|reflexivity])
    end.
    destruct (decide _); [exact H2|]. apply touchPage_consistent, H2.
Qed.

Lemma write_consistent (st : Store) (o : Z) (d : list Z) :
  consistent st -> consistent (fst (_write st o d)).
Proof.
  intros H. apply ensureOpen_consistent in H. unfold _write.
  destruct (strict_exceeded _ _); [exact H|]. apply writeNext_consistent, H.
Qed.

Lemma deleteNext_consistent (fuel : nat) :
  forall (st : Store) (ro en bd off : Z),
    consistent st -> consistent (fst (deleteNext fuel st ro en bd off)).
Proof.
  induction fuel as [|fuel IH]; intros st ro en bd off H; simpl.
  - destruct (en - ro <=? bd); [destruct (en =? _size st)|]; exact H.
  - destruct (en - ro <=? bd); [destruct (en =? _size st); exact H|].
    apply IH. pose proof (getPage_consistent st (off / pageSize st) H) as H1.
    destruct (_getPage st (off / pageSize st)) as [st1 [pg|msg]]; simpl in H1;
      [|exact H1].
    apply mark_consistent; [exact H1|reflexivity].
Qed.

Lemma truncate_consistent (st : Store) (n : Z) :
  consistent st -> consistent (fst (_truncate st n)).
Proof.
  intros H. apply ensureOpen_consistent in H. unfold _truncate.
  destruct (_size (_ensureOpen st) <? n).
  - pose proof (write_consistent (_ensureOpen st) (_size (_ensureOpen st))
                  (alloc (n - _size (_ensureOpen st))) H) as H1.
    destruct (_write _ _ _) as [st1 [u|msg]]; simpl in *; [|exact H1].
    revert H1. apply consistent_eq; reflexivity.
  - match goal with
    | |- context [has_truncate (_underlying ?s)] =>
        assert (H3 : consistent s);
        [|destruct (has_truncate (_underlying s)); simpl; [|exact H3];
          revert H3; apply consistent_eq; reflexivity]
    end.
    match goal with
    | |- context [foldl remove_page ?s ?l] =>
        assert (H2 : consistent (foldl remove_page s l))
          by (apply remove_pages_consistent; revert H;
              apply consistent_eq; reflexivity);
        set (st2 := foldl remove_page s l) in *
    end.
    destruct (_pages st2 !! _); [|exact H2].
    destruct (_ =? 0); [apply remove_page_consistent, H2|].
    apply mark_consistent; [exact H2|reflexivity].
Qed.

Lemma evictNext_consistent (pages : list Z) :
  forall (st : Store) (f : bool) (k i : Z),
    consistent st -> consistent (evictNext st f k pages i).
Proof.
  induction pages as [|p pages IH]; intros st f k i H; simpl; [exact H|].
  destruct (k <=? i); [exact H|]. apply IH, evictPage_consistent.
  destruct f; [apply flush_consistent, H|exact H].
Qed.

Lemma step_consistent (st : Store) (op : Op) :
  consistent st -> consistent (step st op).
Proof.
  intros H. destruct op; simpl.
  - unfold _read. pose proof (ensureOpen_consistent st H).
    destruct (negb _); [assumption|]. destruct (strict_exceeded _ _); [assumption|].
    apply readNext_consistent. assumption.
  - apply write_consistent, H.
  - unfold _del. apply deleteNext_consistent, ensureOpen_consistent, H.
  - apply truncate_consistent, H.
  - apply flush_consistent, H.
  - exact H.
  - exact H.
  - apply evictNext_consistent, H.
  - exact H.
  - exact H.
Qed.

(** X7.  Whatever the operations run on a store the constructor built, its
    bookkeeping agrees with its page map: the LRU list names no page twice
    and only resident pages, and the dirty set holds exactly the resident
    pages flagged modified. *)
Theorem bookkeeping_consistent (b : Backend) (opts : Opts) (ops : list Op) :
  consistent (run (create b opts) ops).
Proof.
  assert (H : consistent (create b opts)).
  { split; [apply NoDup_nil_2|]. split; simpl.
    - intros k Hk. inversion Hk.
    - intros p. split; [set_solver|]. intros (pg & Hp & _).
      rewrite lookup_empty in Hp. discriminate. }
  generalize dependent (create b opts). unfold run.
  induction ops as [|op ops IH]; intros st H; simpl.
  - exact H.
  - apply IH, step_consistent, H.
Qed.

(** ** What a flush leaves in the backend *)

Lemma overlay_at_miss (ws : list (Z * list Z)) (i : nat) :
  (forall w, w ∈ ws -> ~ covers w i) -> forall v, overlay_at ws i v = v.
Proof.
  induction ws as [|w ws IH]; intros H v; simpl; [reflexivity|].
  rewrite decide_False by (apply H; left).
  apply IH. intros w' Hw'. apply H. right. exact Hw'.
Qed.

Lemma overlay_at_hit (ws : list (Z * list Z)) (i : nat) (x : Z) :
  (forall w, w ∈ ws -> covers w i -> nth (i - Z.to_nat (fst w)) (snd w) 0 = x) ->
  forall v, v = x \/ (exists w, w ∈ ws /\ covers w i) -> overlay_at ws i v = x.
Proof.
  induction ws as [|w ws IH]; intros H v Hv; simpl.
  - destruct Hv as [Hv|(w & Hw & _)]; [exact Hv|inversion Hw].
  - assert (H' : forall w', w' ∈ ws -> covers w' i ->
                   nth (i - Z.to_nat (fst w')) (snd w') 0 = x)
      by (intros w' Hw'; apply H; right; exact Hw').
    destruct (decide _) as [Hc|Hn].
    + apply IH; [exact H'|]. left. apply H; [left|exact Hc].
    + apply IH; [exact H'|]. destruct Hv as [Hv|(w' & Hw' & Hc')]; [left; exact Hv|].
      right. apply elem_of_cons in Hw' as [->|Hw']; [contradiction|eauto].
Qed.

(** The write a flush issues for page [q] stays on page [q], between the
    offsets the flush computed for it. *)
Lemma flush_write_covers (st : Store) (o e q i : Z) :
  0 < pageSize st -> 0 <= o -> o <= i < e -> o / pageSize st <= q ->
  covers (flush_write st o e (o / pageSize st) ((e - 1) / pageSize st) q)
    (Z.to_nat i) ->
  q = i / pageSize st
  /\ (match _pages st !! q with
      | Some pg => Z.rem i (pageSize st) < blen (data pg)
      | None => True
      end)
  /\ nth (Z.to_nat i
          - Z.to_nat (fst (flush_write st o e (o / pageSize st)
                             ((e - 1) / pageSize st) q)))
       (snd (flush_write st o e (o / pageSize st) ((e - 1) / pageSize st) q)) 0
     = match _pages st !! q with
       | Some pg => byte_at (data pg) (Z.rem i (pageSize st))
       | None => 0
       end.
Proof.
  intros Hps Ho Hi Hq. unfold covers, flush_write. cbn [fst snd].
  set (ps := pageSize st) in *.
  set (so := if q =? o / ps then Z.rem o ps else 0).
  set (eo := if q =? (e - 1) / ps then Z.rem (e - 1) ps + 1 else ps).
  destruct (page_split o ps Ho Hps) as [_ Hro].
  destruct (page_split (e - 1) ps ltac:(lia) Hps) as [_ Hre].
  destruct (page_split i ps ltac:(lia) Hps) as [Hsplit Hr].
  assert (Hso : 0 <= so < ps) by (unfold so; destruct (q =? o / ps); lia).
  assert (Heo : 1 <= eo <= ps) by (unfold eo; destruct (q =? (e - 1) / ps); lia).
  assert (Hsp : 0 <= o / ps) by (apply Z.div_pos; lia).
  assert (Hqps : 0 <= q * ps) by (apply Z.mul_nonneg_nonneg; lia).
  set (buf := match _pages st !! q with
              | Some pg => subarray (data pg) so eo
              | None => alloc (eo - so)
              end).
  assert (Hlen : (length buf <= Z.to_nat eo - Z.to_nat so)%nat).
  { unfold buf. destruct (_pages st !! q) as [pg|].
    - unfold subarray. rewrite length_take. lia.
    - unfold alloc. rewrite length_replicate. lia. }
  intros Hc.
  assert (Hqi : q = i / ps).
  { apply (Z.div_unique i ps q (i - q * ps)); lia. }
  split; [exact Hqi|].
  assert (Hrq : Z.rem i ps = i - q * ps) by (rewrite Hqi; lia).
  assert (Hidx : (Z.to_nat i - Z.to_nat (q * ps + so))%nat
                 = Z.to_nat (Z.rem i ps - so)) by lia.
  rewrite Hidx. unfold buf in *. destruct (_pages st !! q) as [pg|].
  - split.
    + unfold subarray in Hc. rewrite length_take, length_drop in Hc.
      unfold blen. lia.
    + apply (byte_at_subarray (data pg) so eo (Z.rem i ps)); lia.
  - split; [exact I|]. unfold alloc. apply nth_replicate0.
Qed.

(** Conversely the write issued for the page of [i] covers [i], unless the
    page buffer is too short. *)
Lemma flush_write_reaches (st : Store) (o e i : Z) :
  0 < pageSize st -> 0 <= o -> o <= i < e ->
  match _pages st !! (i / pageSize st) with
  | Some pg => Z.rem i (pageSize st) < blen (data pg)
  | None => True
  end ->
  covers (flush_write st o e (o / pageSize st) ((e - 1) / pageSize st)
            (i / pageSize st)) (Z.to_nat i).
Proof.
  intros Hps Ho Hi Hpg. unfold covers, flush_write. cbn [fst snd].
  set (ps := pageSize st) in *. set (p := i / ps) in *.
  set (so := if p =? o / ps then Z.rem o ps else 0).
  set (eo := if p =? (e - 1) / ps then Z.rem (e - 1) ps + 1 else ps).
  destruct (page_split o ps Ho Hps) as [Hos Hro].
  destruct (page_split (e - 1) ps ltac:(lia) Hps) as [Hes Hre].
  destruct (page_split i ps ltac:(lia) Hps) as [Hsplit Hr].
  fold p in Hsplit.
  assert (Hp0 : 0 <= p * ps).
  { apply Z.mul_nonneg_nonneg; [apply Z.div_pos|]; lia. }
  assert (Hso : 0 <= so <= Z.rem i ps).
  { unfold so. destruct (Z.eqb_spec p (o / ps)) as [E|_]; [|lia].
    rewrite <- E in Hos. lia. }
  assert (Heo : Z.rem i ps < eo <= ps).
  { unfold eo. destruct (Z.eqb_spec p ((e - 1) / ps)) as [E|_]; [|lia].
    rewrite <- E in Hes. lia. }
  destruct (_pages st !! p) as [pg|].
  - unfold subarray. rewrite length_take, length_drop. unfold blen in Hpg. lia.
  - unfold alloc. rewrite length_replicate. lia.
Qed.

Lemma flush_byte (st : Store) (o n i : Z) :
  0 < pageSize st -> 0 <= o ->
  o <= i < o + flush_size st n -> i < _size (_ensureOpen st) ->
  byte_at (contents (_underlying (fst (flush st o n)))) i = flushed_byte st i.
Proof.
  intros Hps Ho Hi Hsz.
  destruct (ensureOpen_fields st) as (Hu0 & Hps0 & _ & _ & Hpg0 & _).
  set (st0 := _ensureOpen st) in *.
  assert (Hfl : flushed_byte st i = flushed_byte st0 i)
    by (unfold flushed_byte; rewrite Hps0, Hpg0, Hu0; reflexivity).
  rewrite Hfl. rewrite <- Hps0 in Hps. clear Hfl Hu0 Hpg0.
  unfold flush_size in Hi. fold st0 in Hi.
  set (sz := Z.min n (_size st0)) in *.
  set (ps := pageSize st0) in *.
  set (e := o + sz) in *.
  set (l := seqZ (o / ps) ((e - 1) / ps - o / ps + 1)).
  destruct (flushNext_spec o e (o / ps) ((e - 1) / ps) l st0)
    as (st1 & Hrun & _ & _ & Hb & _).
  assert (H1 : flush st o n = (st1, Ok tt)) by exact Hrun.
  rewrite H1. cbn [fst]. rewrite Hb. unfold byte_at.
  set (ws := map (flush_write st0 o e (o / ps) ((e - 1) / ps)) l).
  assert (Hset : forall c,
             nth (Z.to_nat i)
               (settle ((_size st0 <? e) && has_truncate (_underlying st0))
                  (_size st0) c) 0
             = nth (Z.to_nat i) c 0).
  { intros c. unfold settle. destruct (_ && _); [|reflexivity].
    rewrite nth_resize, decide_True by lia. reflexivity. }
  rewrite Hset, nth_apply_writes.
  assert (Hin : forall w, w ∈ ws ->
            exists q, o / ps <= q
                      /\ w = flush_write st0 o e (o / ps) ((e - 1) / ps) q).
  { intros w Hw. apply list_elem_of_fmap in Hw as (q & -> & Hq).
    apply elem_of_seqZ in Hq. exists q. split; [lia|reflexivity]. }
  assert (Hpl : i / ps ∈ l).
  { apply elem_of_seqZ.
    assert (o / ps <= i / ps) by (apply Z.div_le_mono; lia).
    assert (i / ps <= (e - 1) / ps) by (apply Z.div_le_mono; lia).
    lia. }
  unfold flushed_byte. fold ps.
  destruct (_pages st0 !! (i / ps)) as [pg|] eqn:Epg.
  - destruct (Z.ltb_spec (Z.rem i ps) (blen (data pg))) as [Hlt|Hge].
    + apply overlay_at_hit.
      * intros w Hw Hc. destruct (Hin w Hw) as (q & Hq & ->).
        destruct (flush_write_covers st0 o e q i Hps Ho Hi Hq Hc)
          as (Hqi & _ & Hv).
        etransitivity; [exact Hv|]. rewrite Hqi. fold ps. rewrite Epg. reflexivity.
      * right. exists (flush_write st0 o e (o / ps) ((e - 1) / ps) (i / ps)).
        split; [apply list_elem_of_fmap; eauto|].
        apply flush_write_reaches; try assumption. fold ps. rewrite Epg. exact Hlt.
    + apply overlay_at_miss. intros w Hw Hc.
      destruct (Hin w Hw) as (q & Hq & ->).
      destruct (flush_write_covers st0 o e q i Hps Ho Hi Hq Hc)
        as (Hqi & Hshort & _).
      rewrite Hqi in Hshort. fold ps in Hshort. rewrite Epg in Hshort. lia.
  - apply overlay_at_hit.
    + intros w Hw Hc. destruct (Hin w Hw) as (q & Hq & ->).
      destruct (flush_write_covers st0 o e q i Hps Ho Hi Hq Hc)
        as (Hqi & _ & Hv).
      etransitivity; [exact Hv|]. rewrite Hqi. fold ps. rewrite Epg. reflexivity.
    + right. exists (flush_write st0 o e (o / ps) ((e - 1) / ps) (i / ps)).
      split; [apply list_elem_of_fmap; eauto|].
      apply flush_write_reaches; try assumption. fold ps. rewrite Epg. exact I.
Qed.



(** ** What a flush leaves alone *)

Lemma flush_core_more (st st' : Store) :
  flush_core st' = flush_core st ->
  _pinnedPages st' = _pinnedPages st
  /\ _bitmask st' = _bitmask st
  /\ _strictSizeLimit st' = _strictSizeLimit st
  /\ maxPages st' = maxPages st.
Proof.
  destruct st as [[] ], st' as [[] ]. unfold flush_core, core. simpl.
  intros H. inversion H. subst. repeat split; reflexivity.
Qed.

Lemma flushNext_dirty (l : list Z) :
  forall (st : Store) (o e sp ep : Z),
    _modifiedPages (fst (flushNext st o e sp ep l)) ⊆ _modifiedPages st.
Proof.
  induction l as [|x l IH]; intros st o e sp ep.
  - simpl. destruct (_ && _); reflexivity.
  - rewrite flushNext_step. etransitivity; [apply IH|]. cbv zeta.
    destruct (_pages st !! x) as [pg|]; [destruct (modified pg)|];
      simpl; set_solver.
Qed.

Lemma flush_frame (st : Store) (o n p : Z) :
  data <$> _pages (fst (flush st o n)) !! p = data <$> _pages st !! p
  /\ _lru (fst (flush st o n)) = _lru st
  /\ _size (fst (flush st o n)) = _size (_ensureOpen st)
  /\ _pinnedPages (fst (flush st o n)) = _pinnedPages st
  /\ _bitmask (fst (flush st o n)) = _bitmask st
  /\ _modifiedPages (fst (flush st o n)) ⊆ _modifiedPages st
  /\ (~ flush_visits st o n p ->
      _pages (fst (flush st o n)) !! p = _pages st !! p).
Proof.
  destruct (ensureOpen_fields st)
    as (_ & Hps0 & _ & _ & Hpg0 & Hl0 & Hpin0 & Hbm0 & Hm0).
  set (st0 := _ensureOpen st) in *.
  set (sz := Z.min n (_size st0)).
  set (sp := o / pageSize st0).
  set (ep := (o + sz - 1) / pageSize st0).
  set (l := seqZ sp (ep - sp + 1)).
  destruct (flushNext_spec o (o + sz) sp ep l st0)
    as (st1 & Hrun & Hcore & Hlru & _ & Hd & _ & Ho).
  pose proof (flushNext_dirty l st0 o (o + sz) sp ep) as Hdirty.
  assert (H1 : flush st o n = (st1, Ok tt)) by exact Hrun.
  rewrite Hrun in Hdirty. rewrite H1. cbn [fst] in *.
  destruct (flush_core_fields _ _ Hcore) as (_ & Hsz & _).
  destruct (flush_core_more _ _ Hcore) as (Hpin & Hbm & _).
  split; [rewrite Hd, Hpg0; reflexivity|].
  split; [congruence|]. split; [exact Hsz|].
  split; [congruence|]. split; [congruence|].
  split; [rewrite <- Hm0; exact Hdirty|].
  intros Hnv. rewrite Ho, Hpg0; [reflexivity|].
  intros Hin. apply Hnv. unfold flush_visits, flush_size.
  rewrite <- Hps0. fold st0 sz sp ep.
  apply elem_of_seqZ in Hin. clearbody sp ep. lia.
Qed.



(** ** Pins *)





(** ** Explicit eviction *)

Lemma evictPage_fields (st : Store) (q : Z) :
  _pinnedPages (_evictPage st q) = _pinnedPages st
  /\ _underlying (_evictPage st q) = _underlying st
  /\ _size (_evictPage st q) = _size st
  /\ (forall p, p ∈ _lru (_evictPage st q) -> p ∈ _lru st)
  /\ (forall p, p ∈ _pinnedPages st ->
        _pages (_evictPage st q) !! p = _pages st !! p)
  /\ (forall p, _pages st !! p = None -> _pages (_evictPage st q) !! p = None)
  /\ (q ∉ _pinnedPages st ->
      _pages (_evictPage st q) !! q = None /\ q ∉ _lru (_evictPage st q)).
Proof.
  unfold _evictPage. destruct (decide (q ∈ _pinnedPages st)) as [Hin|Hn]; simpl.
  - repeat split; auto; contradiction.
  - repeat split; auto.
    + intros p Hp. apply lru_delete_elem in Hp. tauto.
    + intros p Hp. apply lookup_delete_ne. congruence.
    + intros p Hp. destruct (decide (q = p)) as [->|Hne].
      * apply lookup_delete_eq.
      * rewrite lookup_delete_ne by exact Hne. exact Hp.
    + apply lookup_delete_eq.
    + rewrite lru_delete_elem. tauto.
Qed.

Lemma flush_for_evict (st : Store) (f : bool) (o n : Z) :
  let st1 := if f then fst (flush st o n) else st in
  _pinnedPages st1 = _pinnedPages st
  /\ _lru st1 = _lru st
  /\ (forall p, data <$> _pages st1 !! p = data <$> _pages st !! p)
  /\ (f = false -> st1 = st).
Proof.
  destruct f; cbv zeta.
  - repeat split; try discriminate.
    + apply (flush_frame st o n 0).
    + apply (flush_frame st o n 0).
    + intros p. apply (flush_frame st o n p).
  - repeat split; reflexivity.
Qed.

Lemma evictNext_frame (pages : list Z) :
  forall (st : Store) (f : bool) (k i : Z),
    _pinnedPages (evictNext st f k pages i) = _pinnedPages st
    /\ (forall p, p ∈ _lru (evictNext st f k pages i) -> p ∈ _lru st)
    /\ (forall p, p ∈ _pinnedPages st ->
          data <$> _pages (evictNext st f k pages i) !! p
          = data <$> _pages st !! p)
    /\ (forall p, _pages st !! p = None ->
          _pages (evictNext st f k pages i) !! p = None)
    /\ (f = false ->
        _underlying (evictNext st f k pages i) = _underlying st
        /\ _size (evictNext st f k pages i) = _size st
        /\ forall p, p ∈ _pinnedPages st ->
             _pages (evictNext st f k pages i) !! p = _pages st !! p).
Proof.
  induction pages as [|q pages IH]; intros st f k i; simpl.
  - repeat split; auto.
  - destruct (k <=? i); [repeat split; auto|].
    destruct (flush_for_evict st f (q * pageSize st) (pageSize st))
      as (Hpin & Hlru & Hdata & Hsame).
    set (st1 := if f then fst (flush st (q * pageSize st) (pageSize st)) else st)
      in *.
    destruct (evictPage_fields st1 q) as (Epin & Eu & Esz & Elru & Ekeep & Enone & _).
    destruct (IH (_evictPage st1 q) f k (i + 1))
      as (Ipin & Ilru & Ikeep & Inone & Ifalse).
    split; [congruence|].
    split; [intros p Hp; rewrite <- Hlru; apply Elru, Ilru, Hp|].
    split.
    { intros p Hp. rewrite Ikeep by (rewrite Epin, Hpin; exact Hp).
      rewrite Ekeep by (rewrite Hpin; exact Hp). apply Hdata. }
    split.
    { intros p Hp. apply Inone, Enone.
      specialize (Hdata p). rewrite Hp in Hdata.
      destruct (_pages st1 !! p); [discriminate|reflexivity]. }
    intros Hf. destruct (Ifalse Hf) as (Iu & Isz & Ipg).
    rewrite (Hsame Hf) in *. split; [congruence|]. split; [congruence|].
    intros p Hp. rewrite Ipg by (rewrite Epin; exact Hp). apply Ekeep, Hp.
Qed.

(** X11.  [evict] never drops a pinned page and never makes a page
    resident: a pinned page keeps its bytes, the pin set is unchanged, and
    a page absent before is absent after.  Without [flushBeforeEvict] the
    backend and the size are untouched as well. *)
Theorem evict_spares_pinned (st : Store) (percent : Q) (f : bool) (p : Z) :
  _pinnedPages (evict st percent f) = _pinnedPages st
  /\ (p ∈ _pinnedPages st ->
      data <$> _pages (evict st percent f) !! p = data <$> _pages st !! p)
  /\ (_pages st !! p = None -> _pages (evict st percent f) !! p = None)
  /\ (f = false ->
      _underlying (evict st percent f) = _underlying st
      /\ _size (evict st percent f) = _size st).
Proof.
  unfold evict.
  match goal with
  | |- context [evictNext st f ?k ?l 0] =>
      destruct (evictNext_frame l st f k 0) as (H1 & _ & H3 & H4 & H5)
  end.
  split; [exact H1|]. split; [apply H3|]. split; [apply H4|].
  intros Hf. destruct (H5 Hf) as (? & ? & _). auto.
Qed.

Lemma evictNext_all (pages : list Z) :
  forall (st : Store) (f : bool) (k i : Z),
    i + Z.of_nat (length pages) <= k ->
    forall p, p ∈ pages -> p ∉ _pinnedPages st ->
      _pages (evictNext st f k pages i) !! p = None
      /\ p ∉ _lru (evictNext st f k pages i).
Proof.
  induction pages as [|q pages IH]; intros st f k i Hk p Hp Hnp.
  - inversion Hp.
  - simpl. simpl length in Hk. destruct (Z.leb_spec k i) as [Hle|_]; [lia|].
    destruct (flush_for_evict st f (q * pageSize st) (pageSize st))
      as (Hpin & Hlru & Hdata & _).
    set (st1 := if f then fst (flush st (q * pageSize st) (pageSize st)) else st)
      in *.
    destruct (evictPage_fields st1 q) as (Epin & _ & _ & _ & _ & _ & Egone).
    destruct (decide (p = q)) as [->|Hne].
    + destruct Egone as [Eg El]; [rewrite Hpin; exact Hnp|].
      destruct (evictNext_frame pages (_evictPage st1 q) f k (i + 1))
        as (_ & Ilru & _ & Inone & _).
      split; [apply Inone, Eg|]. intros Hc. apply El, Ilru, Hc.
    + apply IH; [lia| |rewrite Epin, Hpin; exact Hnp].
      apply elem_of_cons in Hp as [Hp|Hp]; [contradiction|exact Hp].
Qed.

(** X12.  [evict] with a fraction of at least 1 (the default) drops every
    page the LRU list tracks that is not pinned: afterwards none of them is
    resident or tracked. *)
Theorem evict_all_unpinned (st : Store) (percent : Q) (f : bool) (p : Z) :
  (1 <= percent)%Q ->
  p ∈ _lru st -> p ∉ _pinnedPages st ->
  _pages (evict st percent f) !! p = None /\ p ∉ _lru (evict st percent f).
Proof.
  intros Hq Hin Hnp. unfold evict. apply evictNext_all.
  - rewrite length_rev.
    pose proof (length_filter (fun index => index ∉ _pinnedPages st) (_lru st)) as Hlen.
    set (t := Z.of_nat (length (_lru st))) in *.
    assert (Ht : t <= Qceiling (inject_Z t * percent)).
    { rewrite <- (Qceiling_Z t) at 1. apply Qceiling_resp_le.
      rewrite <- (Qmult_1_r (inject_Z t)) at 1.
      apply Qmult_le_compat_nonneg.
      - split; [|apply Qle_refl].
        change 0%Q with (inject_Z 0). rewrite <- Zle_Qle. unfold t. lia.
      - split; [discriminate|exact Hq]. }
    lia.
  - apply list_elem_of_In. rewrite <- in_rev. apply list_elem_of_In.
    apply list_elem_of_filter. auto.
  - exact Hnp.
Qed.

Lemma evict_all_unpinned_witness :
  _pages (evict ram_nines_written 1 false) !! 0 = None
  /\ 0 ∉ _lru (evict ram_nines_written 1 false).
Proof.
  apply (evict_all_unpinned ram_nines_written 1 false 0).
  - discriminate.
  - vm_compute. left.
  - vm_compute. discriminate.
Defined.

(** ** A read, byte by byte *)


Lemma length_subarray_le (l : list Z) (a b : Z) :
  (length (subarray l a b) <= Z.to_nat b - Z.to_nat a)%nat
  /\ (length (subarray l a b) <= length l - Z.to_nat a)%nat
  /\ (Z.to_nat b <= length l -> length (subarray l a b) = Z.to_nat b - Z.to_nat a)%nat
  /\ (length l < Z.to_nat b -> length (subarray l a b) = length l - Z.to_nat a)%nat.
Proof. unfold subarray. rewrite length_take, length_drop. lia. Qed.






(** ** Reading through to the backend *)






(** ** Shrinking *)










(** ** Writing, then flushing *)

(** The page a write reached holds the written bytes. *)
Lemma written_byte (st st' : Store) (o : Z) (d : list Z) (i : Z) :
  0 < pageSize st -> 0 <= o -> o <= i < o + blen d ->
  page_written st st' o d
    (part_lo st o (i / pageSize st))
    (part_hi st (o + blen d) (i / pageSize st)) (i / pageSize st) ->
  exists pg,
    _pages st' !! (i / pageSize st) = Some pg
    /\ Z.rem i (pageSize st) < blen (data pg)
    /\ byte_at (data pg) (Z.rem i (pageSize st)) = byte_at d (i - o).
Proof.
  intros Hps Ho Hi (pg0 & pg & _ & Hres & _ & Hsub & _).
  exists pg. split; [exact Hres|].
  destruct (page_split i (pageSize st)) as [Hsplit Hrem]; [lia|lia|].
  set (ps := pageSize st) in *. set (p := i / ps) in *.
  set (r := Z.rem i ps) in *.
  assert (Hp0 : 0 <= p * ps).
  { apply Z.mul_nonneg_nonneg; [apply Z.div_pos|]; lia. }
  unfold part_lo, part_hi in Hsub. fold ps in Hsub.
  set (lo := Z.max o (p * ps)) in *.
  set (hi := Z.min (o + blen d) ((p + 1) * ps)) in *.
  assert (Hlo : lo <= i < hi) by (unfold lo, hi; lia).
  assert (Hdl : length (subarray d (lo - o) (hi - o)) = Z.to_nat (hi - lo)).
  { rewrite length_subarray by (unfold lo, hi; lia). f_equal. lia. }
  destruct (length_subarray_le (data pg) (lo - p * ps) (hi - p * ps))
    as (_ & _ & _ & Hshort).
  rewrite Hsub, Hdl in Hshort.
  assert (Hlong : (Z.to_nat (hi - p * ps) <= length (data pg))%nat).
  { destruct (Nat.le_gt_cases (Z.to_nat (hi - p * ps)) (length (data pg)))
      as [H|H]; [exact H|].
    specialize (Hshort H). unfold lo, hi in *. lia. }
  split; [unfold blen, hi in *; lia|].
  transitivity (byte_at (subarray (data pg) (lo - p * ps) (hi - p * ps))
                  (r - (lo - p * ps))).
  - symmetry. apply byte_at_subarray; unfold lo in *; lia.
  - rewrite Hsub. replace (r - (lo - p * ps)) with (i - o - (lo - o)) by lia.
    apply byte_at_subarray; unfold lo in *; lia.
Qed.

(** X17.  Without a bitmask, what a write stored is what a flush of the
    whole file commits: after [write(o, d)] and [flush()], the backend
    holds [d] at [o]. *)
Theorem write_then_flush (st st1 : Store) (o : Z) (d : list Z) (i : Z) :
  0 < pageSize st -> 0 <= o ->
  (opened st = true -> _fileExists st = true) ->
  _bitmask st = None ->
  _write st o d = (st1, Ok tt) ->
  o <= i < o + blen d ->
  byte_at (contents (_underlying (fst (flush st1 0 (_size st1))))) i
  = byte_at d (i - o).
Proof.
  intros Hps Ho Hwf Hbm Hrun Hi.
  destruct (write_spec st st1 o d Hps Ho Hrun) as (_ & Hcore & Hpages).
  destruct (write_leaves_open st st1 o d Hps Ho Hwf Hrun)
    as (Hopen & _ & Hps' & _).
  destruct (ensureOpen_fields st) as (_ & Hps0 & _ & _ & _ & _ & _ & Hbm0 & _).
  apply core_fields in Hcore as (_ & _ & _ & _ & _ & _ & _ & Hsz & _).
  cbn [_size set_size] in Hsz.
  rewrite flush_byte; rewrite ?Hps', ?Hopen; unfold flush_size;
    rewrite ?Hopen; try lia.
  destruct (Hpages (i / pageSize st)) as [Hw _].
  destruct (written_byte (_ensureOpen st) st1 o d i) as (pg & Hres & Hlen & Hb).
  - rewrite Hps0. exact Hps.
  - exact Ho.
  - exact Hi.
  - rewrite Hps0. apply Hw. unfold hit, _isBitSet. rewrite Hbm0, Hbm.
    rewrite andb_true_r. apply bool_decide_eq_true_2.
    destruct (page_split i (pageSize st)) as [Hsplit Hrem]; [lia|lia|].
    unfold part_lo, part_hi. rewrite Hps0. lia.
  - rewrite Hps0 in *. unfold flushed_byte. rewrite Hps', Hres.
    destruct (Z.ltb_spec (Z.rem i (pageSize st)) (blen (data pg))); [exact Hb|lia].
Qed.

Lemma write_then_flush_witness :
  byte_at (contents (_underlying
             (fst (flush ram_nines_written 0 (_size ram_nines_written))))) 2
  = byte_at [7; 8] (2 - 1).
Proof.
  apply (write_then_flush (create ram_nines small_pages) ram_nines_written
           1 [7; 8] 2).
  - reflexivity.
  - lia.
  - discriminate.
  - reflexivity.
  - vm_compute. reflexivity.
  - vm_compute. split; [discriminate|reflexivity].
Defined.

(** ** Deleting *)









(** ** Growing *)




(** ** What a flush leaves in the rest of the backend *)





(** ** The layout of the bitmask *)

(** X22.  With a bitmask installed, a part of [length] bytes at a
    non-negative [offset] counts as set exactly when every byte offset [k]
    of it has its bit set: bit [k mod 8], counted from the least
    significant one, of mask byte [k / 8]; a bit past the end of the mask
    counts as unset. *)
Theorem isBitSet_layout (st : Store) (B : list Z) (a n : Z) :
  0 <= a ->
  _isBitSet (setBitmask st B) a n = true
  <-> forall k, a <= k < a + n ->
        k / 8 < blen B /\ Z.testbit (byte_at B (k / 8)) (k mod 8) = true.
Proof.
  intros Ha. rewrite (isBitSet_spec (setBitmask st B) B a n eq_refl).
  split; intros H k Hk; specialize (H k Hk).
  - rewrite bit_ok_testbit in H by lia.
    apply andb_true_iff in H as [H1 H2].
    apply bool_decide_eq_true_1 in H1. auto.
  - rewrite bit_ok_testbit by lia. destruct H as [H1 H2].
    rewrite H2, andb_true_r. apply bool_decide_eq_true_2, H1.
Qed.

Lemma isBitSet_layout_witness :
  _isBitSet (setBitmask (create empty_ram small_pages) [5]) 2 1 = true
  <-> forall k, 2 <= k < 2 + 1 ->
        k / 8 < blen [5] /\ Z.testbit (byte_at [5] (k / 8)) (k mod 8) = true.
Proof.
  apply (isBitSet_layout (create empty_ram small_pages) [5] 2 1). lia.
Defined.

(** ** Eviction with a flush *)







